(** * BeatDetect: tempo, phase and tap-tempo estimation

    A shallow embedding of the [BeatDetect] class (the analysis pipeline
    [_processRenderedBuffer], its stages [_getPeaks], [_getIntervals],
    [_getOffsets], [_getLowestTimeOffset], and the tap-tempo handler
    [_tapBpm]) together with the properties of the written specification
    that can be settled on it, and of the two consumers of its result: the
    [BeatMapGenerator] class and the scoring of the [RhythmGame] component.

    Numbers.  A JavaScript [number] is modelled by [num]: an exact rational
    or one of the three special values +Infinity, -Infinity and NaN.  The
    arithmetic on finite values is exact (IEEE rounding of the mantissa is
    not modelled, and neither is the sign of zero: a zero divisor counts as
    +0); the propagation of Infinity and NaN, on which the control flow of
    the program depends, follows IEEE-754.  A finite result never overflows
    to Infinity or underflows to zero here: where a statement would depend
    on that, it carries explicit bounds on the magnitudes, and statements
    are about orders, ranges and the shape of results rather than about the
    last digit of a quotient.

    Loops.  [for] and [while] loops are iterated with a fuel counter; a
    loop that exhausts it yields [OutOfFuel].  "The loop terminates" is
    stated as: some amount of fuel gives a result; "the loop diverges" as:
    every amount of fuel gives [OutOfFuel]. *)

From Stdlib Require Import QArith Qround Qabs Qpower Qfield Lqa Lia ZArith.
From Stdlib Require Import List Bool.
From Stdlib Require Import Sorting.Sorted Sorting.Permutation.
From Stdlib Require String.
Import ListNotations.
Open Scope Q_scope.

(** ** JavaScript numbers *)

Module JS.

Inductive num : Type :=
| Fin (q : Q)
| PInf
| NInf
| NaN.

Definition Qltb (a b : Q) : bool :=
  match a ?= b with Lt => true | _ => false end.

Definition Qleb (a b : Q) : bool :=
  match a ?= b with Gt => false | _ => true end.

Definition Qeqb (a b : Q) : bool :=
  match a ?= b with Eq => true | _ => false end.

Definition neg (x : num) : num :=
  match x with
  | Fin a => Fin (- a)
  | PInf => NInf
  | NInf => PInf
  | NaN => NaN
  end.

Definition add (x y : num) : num :=
  match x, y with
  | NaN, _ | _, NaN => NaN
  | Fin a, Fin b => Fin (a + b)
  | PInf, NInf | NInf, PInf => NaN
  | PInf, _ | _, PInf => PInf
  | NInf, _ | _, NInf => NInf
  end.

Definition sub (x y : num) : num := add x (neg y).

(** The sign of an infinite product or quotient. *)
Definition signed (positive : bool) : num :=
  if positive then PInf else NInf.

Definition mul (x y : num) : num :=
  match x, y with
  | NaN, _ | _, NaN => NaN
  | Fin a, Fin b => Fin (a * b)
  | PInf, Fin b | Fin b, PInf =>
      match b ?= 0 with Gt => PInf | Lt => NInf | Eq => NaN end
  | NInf, Fin b | Fin b, NInf =>
      match b ?= 0 with Gt => NInf | Lt => PInf | Eq => NaN end
  | PInf, PInf | NInf, NInf => PInf
  | PInf, NInf | NInf, PInf => NInf
  end.

Definition div (x y : num) : num :=
  match x, y with
  | NaN, _ | _, NaN => NaN
  | Fin a, Fin b =>
      if Qeqb b 0
      then match a ?= 0 with Gt => PInf | Lt => NInf | Eq => NaN end
      else Fin (a / b)
  | Fin _, (PInf | NInf) => Fin 0
  | PInf, Fin b => signed (negb (Qltb b 0))
  | NInf, Fin b => signed (Qltb b 0)
  | (PInf | NInf), (PInf | NInf) => NaN
  end.

(** Comparisons: every comparison with NaN is false. *)
Definition lt (x y : num) : bool :=
  match x, y with
  | NaN, _ | _, NaN => false
  | Fin a, Fin b => Qltb a b
  | NInf, (Fin _ | PInf) => true
  | Fin _, PInf => true
  | _, _ => false
  end.

Definition le (x y : num) : bool :=
  match x, y with
  | NaN, _ | _, NaN => false
  | Fin a, Fin b => Qleb a b
  | NInf, _ => true
  | _, PInf => true
  | _, _ => false
  end.

Definition gt (x y : num) : bool := lt y x.
Definition ge (x y : num) : bool := le y x.

(** Strict equality [===] on numbers. *)
Definition eqb (x y : num) : bool :=
  match x, y with
  | Fin a, Fin b => Qeqb a b
  | PInf, PInf | NInf, NInf => true
  | _, _ => false
  end.

(** [Math.abs], [Math.max] on two arguments, [Math.round] (half up) and
    [Math.pow(10, p)] for an integral [p]. *)
Definition abs (x : num) : num :=
  match x with
  | Fin a => Fin (Qabs a)
  | PInf | NInf => PInf
  | NaN => NaN
  end.

Definition max (x y : num) : num :=
  match x, y with
  | NaN, _ | _, NaN => NaN
  | PInf, _ | _, PInf => PInf
  | NInf, z | z, NInf => z
  | Fin a, Fin b => Fin (if Qleb a b then b else a)
  end.

Definition round (x : num) : num :=
  match x with
  | Fin a => Fin (inject_Z (Qfloor (a + (1 # 2))))
  | _ => x
  end.

Definition pow10 (p : Z) : num := Fin (Qpower 10 p).

(** The numeric value of a natural-number counter or length. *)
Definition of_nat (n : nat) : num := Fin (inject_Z (Z.of_nat n)).

(** [ToIntegerOrInfinity] clamped to [0 .. len], as [splice] does with its
    delete count. *)
Definition to_count (x : num) (len : nat) : nat :=
  match x with
  | Fin a => Nat.min (Z.to_nat (Qfloor a)) len
  | PInf => len
  | NInf | NaN => O
  end.

Definition is_fin (x : num) : Prop :=
  match x with Fin _ => True | _ => False end.

(** Equality of numbers up to the representation of a rational. *)
Definition same (x y : num) : Prop :=
  match x, y with
  | Fin a, Fin b => a == b
  | PInf, PInf | NInf, NInf | NaN, NaN => True
  | _, _ => False
  end.

End JS.

Import JS.

Declare Scope num_scope.
Delimit Scope num_scope with num.
Bind Scope num_scope with num.
Notation "x + y" := (add x y) : num_scope.
Notation "x - y" := (sub x y) : num_scope.
Notation "x * y" := (mul x y) : num_scope.
Notation "x / y" := (div x y) : num_scope.
Notation "x <? y" := (lt x y) (at level 70) : num_scope.
Notation "x <=? y" := (le x y) (at level 70) : num_scope.
Notation "x >? y" := (gt x y) (at level 70) : num_scope.
Notation "x >=? y" := (ge x y) (at level 70) : num_scope.
Notation "x =? y" := (eqb x y) (at level 70) : num_scope.

(** ** Results of a computation *)

Inductive exn : Type :=
| TypeError                (* property read on [undefined] *)
| InvalidOptions.          (* the stage's own [reject("BeatDetect.ERROR ...")] *)

Inductive res (A : Type) : Type :=
| Ret (a : A)
| Throw (e : exn)
| OutOfFuel.

Arguments Ret {A} a.
Arguments Throw {A} e.
Arguments OutOfFuel {A}.

Definition bind {A B : Type} (m : res A) (k : A -> res B) : res B :=
  match m with
  | Ret a => k a
  | Throw e => Throw e
  | OutOfFuel => OutOfFuel
  end.

Notation "'let*' x ':=' m 'in' k" := (bind m (fun x => k))
  (at level 10, x name, m at level 100, k at level 200).

(** [for (i = init; cond(i); i = next(i)) acc = body(i, acc)] *)
Fixpoint for_loop {I A : Type} (fuel : nat) (cond : I -> bool) (next : I -> I)
  (body : I -> A -> res A) (i : I) (acc : A) : res A :=
  match fuel with
  | O => OutOfFuel
  | S fuel' =>
      if cond i
      then let* acc' := body i acc in for_loop fuel' cond next body (next i) acc'
      else Ret acc
  end.

(** [while (cond(x)) x = step(x)] *)
Fixpoint while_loop {A : Type} (fuel : nat) (cond : A -> bool) (step : A -> A)
  (x : A) : res A :=
  match fuel with
  | O => OutOfFuel
  | S fuel' => if cond x then while_loop fuel' cond step (step x) else Ret x
  end.

(** ** Arrays *)

(** Stable sort by a comparator returning a number, as [Array.prototype.sort]
    does with a consistent comparator: [b] moves before [a] exactly when
    [cmp a b > 0]. *)
Section Sort.
Context {A : Type} (cmp : A -> A -> num).

Fixpoint sort_insert (x : A) (l : list A) : list A :=
  match l with
  | [] => [x]
  | y :: ys => if (cmp x y >? Fin 0)%num then y :: sort_insert x ys else x :: l
  end.

Definition sort (l : list A) : list A := fold_right sort_insert [] l.

End Sort.

(** [l.splice(0, n)]: the removed elements, that is the first
    [ToIntegerOrInfinity(n)] ones. *)
Definition splice0 {A : Type} (l : list A) (n : num) : list A :=
  firstn (to_count n (length l)) l.

(** [arr.forEach((x, index) => ...)] threading the state the callback
    mutates. *)
Fixpoint forEach {A St : Type} (f : A -> nat -> St -> res St) (l : list A)
  (index : nat) (s : St) : res St :=
  match l with
  | [] => Ret s
  | x :: rest => let* s' := f x index s in forEach f rest (S index) s'
  end.

(** A [Float32Array] and the read [data[j]] at a numeric index.  Outside
    the array (or at a fractional index) the read is [undefined], which
    every use in the program coerces to NaN before looking at it. *)
Definition Float32Array : Type := list num.

Definition get (data : Float32Array) (j : num) : num :=
  match j with
  | Fin q =>
      if Qeqb q (inject_Z (Qfloor q)) && (0 <=? Qfloor q)%Z
      then nth (Z.to_nat (Qfloor q)) data NaN
      else NaN
  | _ => NaN
  end.

(** ** Data model *)

Record Peak : Type := mkPeak { position : num; volume : num }.

Record IntervalGroup : Type := mkGroup {
  tempo : num;
  count : nat;
  group_position : num;
  peaks : list Peak
}.

Record Offsets : Type := mkOffsets {
  offsets_offset : num;
  offsets_firstBar : num
}.

Record BeatInfo : Type := mkBeatInfo { bpm : num; offset : num; firstBar : num }.

(** The configuration held by a [BeatDetect] instance that the numeric
    stages read.  Configured values are finite numbers; [_float] is a number
    of decimal digits. *)
Record BeatDetect : Type := mkBeatDetect {
  _sampleRate : Q;
  _round : bool;
  _float : Z;
  _bpmRange : Q * Q;
  _timeSignature : Q
}.

(** The constructor's defaults. *)
Definition defaults : BeatDetect :=
  {| _sampleRate := 44100; _round := false; _float := 8;
     _bpmRange := (90, 180); _timeSignature := 4 |}.

(** ** The analysis stages *)

Section Stages.
Variable this : BeatDetect.

(** [_floatRound], lines 517-520. *)
Definition _floatRound (value : num) (precision : Z) : num :=
  let multiplier := pow10 precision in
  (round (value * multiplier) / multiplier)%num.

(** [const partSize = this._sampleRate / 2], lines 349 and 409. *)
Definition partSize : num := (Fin (_sampleRate this) / Fin 2)%num.

(** The scan of one window shared by [_getPeaks] and [_getOffsets]:
    [for (let j = i * partSize; j < (i + 1) * partSize; ++j)], where
    [sample j] is the peak the body would record at index [j].  The test
    [!max] of the source is always false, [max] being an object. *)
Definition scan_window (fuel : nat) (i : nat) (sample : num -> Peak)
  : res Peak :=
  for_loop fuel
    (fun j => (j <? (of_nat i + Fin 1) * partSize)%num)
    (fun j => (j + Fin 1)%num)
    (fun j max =>
       let p := sample j in
       Ret (if (volume p >? volume max)%num then p else max))
    (of_nat i * partSize)%num
    {| position := Fin 0; volume := Fin 0 |}.

(** [for (let i = 0; i < parts; ++i) { ...; peaks.push(max) }] *)
Definition scan_windows (fuel : nat) (len : nat) (sample : num -> Peak)
  : res (list Peak) :=
  let parts := (of_nat len / partSize)%num in
  for_loop fuel
    (fun i => (of_nat i <? parts)%num)
    S
    (fun i peaks =>
       let* max := scan_window fuel i sample in Ret (peaks ++ [max]))
    O [].

(** Lines 348-362 of [_getPeaks]: the peaks of all windows, before the
    loudest half is selected.  [data] is the pair the only caller passes. *)
Definition window_peaks (fuel : nat) (data : Float32Array * Float32Array)
  : res (list Peak) :=
  scan_windows fuel (length (fst data))
    (fun j =>
       {| position := j;
          volume := max (abs (get (fst data) j)) (abs (get (snd data) j)) |}).

(** Lines 364-366: sort by volume, keep the first half, sort by position. *)
Definition select_peaks (peaks : list Peak) : list Peak :=
  let peaks1 := sort (fun a b => (volume b - volume a)%num) peaks in
  let peaks2 := splice0 peaks1 (of_nat (length peaks1) * Fin (1 # 2))%num in
  sort (fun a b => (position a - position b)%num) peaks2.

(** [_getPeaks], lines 348-369. *)
Definition _getPeaks (fuel : nat) (data : Float32Array * Float32Array)
  : res (list Peak) :=
  let* peaks := window_peaks fuel data in
  Ret (select_peaks peaks).

(** *** Tempo candidates *)

(** The two octave-folding loops of lines 385-386. *)
Definition fold_up (fuel : nat) (t : num) : res num :=
  while_loop fuel (fun t => (t <=? Fin (fst (_bpmRange this)))%num)
    (fun t => (t * Fin 2)%num) t.

Definition fold_down (fuel : nat) (t : num) : res num :=
  while_loop fuel (fun t => (t >? Fin (snd (_bpmRange this)))%num)
    (fun t => (t / Fin 2)%num) t.

Definition fold_tempo (fuel : nat) (t : num) : res num :=
  let* t1 := fold_up fuel t in fold_down fuel t1.

Definition round_tempo (t : num) : num :=
  if _round this then round t else _floatRound t (_float this).

(** [groups.some(...)]: the first group with the same tempo receives the
    vote; [None] when no group has it. *)
Fixpoint some_vote (group : IntervalGroup) (peak : Peak)
  (groups : list IntervalGroup) : option (list IntervalGroup) :=
  match groups with
  | [] => None
  | interval :: rest =>
      if (tempo interval =? tempo group)%num
      then Some ({| tempo := tempo interval;
                    count := S (count interval);
                    group_position := group_position interval;
                    peaks := peaks interval ++ [peak] |} :: rest)
      else option_map (cons interval) (some_vote group peak rest)
  end.

Definition vote (group : IntervalGroup) (peak : Peak)
  (groups : list IntervalGroup) : list IntervalGroup :=
  match some_vote group peak groups with
  | Some groups' => groups'
  | None => groups ++ [group]
  end.

(** Lines 377-379: the tempo of the interval from [peak] to [next]. *)
Definition raw_tempo (peak next : Peak) : num :=
  (Fin 60 * Fin (_sampleRate this) / (position next - position peak))%num.

(** Lines 376-401, the body of the loop over [i]: one interval, one vote;
    [next] is [peaks[index + i]]. *)
Definition interval_vote (fuel : nat) (all : list Peak) (peak : Peak)
  (index i : nat) (groups : list IntervalGroup) : res (list IntervalGroup) :=
  match nth_error all (index + i) with
  | None => Throw TypeError
  | Some next =>
      let* t := fold_tempo fuel (raw_tempo peak next) in
      Ret (vote {| tempo := round_tempo t; count := 1;
                   group_position := position peak; peaks := [] |}
             peak groups)
  end.

(** [_getIntervals], lines 371-406. *)
Definition _getIntervals (fuel : nat) (all : list Peak)
  : res (list IntervalGroup) :=
  forEach
    (fun peak index groups =>
       for_loop fuel
         (fun i => (index + i <? length all)%nat && (i <? 10)%nat)
         S
         (interval_vote fuel all peak index)
         1%nat groups)
    all O [].

(** *** Beat phase *)

(** [_getLowestTimeOffset], lines 457-473. *)
Definition _getLowestTimeOffset (fuel : nat) (position bpm : num) : res num :=
  let bpmTime := (Fin 60 / bpm)%num in
  let firstBeatTime := (position / Fin (_sampleRate this))%num in
  let* offset :=
    while_loop fuel (fun offset => (offset >=? bpmTime)%num)
      (fun offset => (offset - bpmTime * Fin (_timeSignature this))%num)
      firstBeatTime in
  if (offset <? Fin 0)%num
  then while_loop fuel (fun offset => (offset <? Fin 0)%num)
         (fun offset => (offset + bpmTime)%num) offset
  else Ret offset.

(** The window peaks of [_getOffsets], lines 413-425: positions are moved
    back by 5% of a beat. *)
Definition offset_peaks (fuel : nat) (data : Float32Array) (bpm : num)
  : res (list Peak) :=
  scan_windows fuel (length data)
    (fun j =>
       {| position :=
            (j - round (Fin 60 / bpm * Fin (5 # 100)
                        * Fin (_sampleRate this)))%num;
          volume := get data j |}).

(** The band test of line 436. *)
Definition in_band (offset refOffset : num) : bool :=
  (offset - refOffset <? Fin (5 # 100))%num
  || (refOffset - offset >? Fin (- (5 # 100)))%num.

(** Lines 434-440: the sum of the offsets in the band and their number. *)
Fixpoint band_sum (fuel : nat) (bpm refOffset : num) (peaks : list Peak)
  (mean divider : num) : res (num * num) :=
  match peaks with
  | [] => Ret (mean, divider)
  | peak :: rest =>
      let* offset := _getLowestTimeOffset fuel (position peak) bpm in
      if in_band offset refOffset
      then band_sum fuel bpm refOffset rest
             (mean + offset)%num (divider + Fin 1)%num
      else band_sum fuel bpm refOffset rest mean divider
  end.

(** Lines 442-443: [let i = 0; while (unsortedPeaks[i].volume < 0.02) ++i;]
    Reading [.volume] of the [undefined] found past the end of the array
    throws. *)
Fixpoint first_bar_scan (fuel : nat) (unsortedPeaks : list Peak) (i : nat)
  : res nat :=
  match fuel with
  | O => OutOfFuel
  | S fuel' =>
      match nth_error unsortedPeaks i with
      | None => Throw TypeError
      | Some peak =>
          if (volume peak <? Fin (2 # 100))%num
          then first_bar_scan fuel' unsortedPeaks (S i)
          else Ret i
      end
  end.

(** Lines 447-449: the clamp of the first bar. *)
Definition clamp_first_bar (firstBar meanOffset bpm : num) : num :=
  if (firstBar >? meanOffset)%num && (firstBar <? Fin 60 / bpm)%num
  then meanOffset
  else firstBar.

(** The first-bar candidate of line 445, before the clamp. *)
Definition first_bar_candidate (fuel : nat) (unsortedPeaks : list Peak)
  : res num :=
  let* i := first_bar_scan fuel unsortedPeaks O in
  match nth_error unsortedPeaks i with
  | None => Throw TypeError
  | Some peak => Ret (position peak / Fin (_sampleRate this))%num
  end.

(** [_getOffsets], lines 408-455; [peaks[0]] of an empty array is
    [undefined], and reading its [position] throws. *)
Definition _getOffsets (fuel : nat) (data : Float32Array) (bpm : num)
  : res Offsets :=
  let* unsortedPeaks := offset_peaks fuel data bpm in
  let peaks := sort (fun a b => (volume b - volume a)%num) unsortedPeaks in
  match peaks with
  | [] => Throw TypeError
  | loudest :: _ =>
      let* refOffset := _getLowestTimeOffset fuel (position loudest) bpm in
      let* md := band_sum fuel bpm refOffset peaks (Fin 0) (Fin 0) in
      let* firstBar := first_bar_candidate fuel unsortedPeaks in
      Ret {| offsets_offset := (fst md / snd md)%num;
             offsets_firstBar :=
               clamp_first_bar firstBar (fst md / snd md)%num bpm |}
  end.

(** *** The pipeline stage *)

(** [_processRenderedBuffer], lines 289-337, on the two channels of the
    rendered buffer; [None] stands for an options object without
    [renderedBuffer].  Reading [top[0].tempo] of an empty [top] throws, which
    rejects the promise.  The timing marks ([perf]) only feed the optional
    timing report and are left out. *)
Definition _processRenderedBuffer (fuel : nat)
  (renderedBuffer : option (Float32Array * Float32Array)) : res BeatInfo :=
  match renderedBuffer with
  | None => Throw InvalidOptions
  | Some (dataL, dataR) =>
      let* peaks := _getPeaks fuel (dataL, dataR) in
      let* groups := _getIntervals fuel peaks in
      let top :=
        splice0 (sort (fun intA intB =>
                         (of_nat (count intB) - of_nat (count intA))%num)
                   groups) (Fin 5) in
      match top with
      | [] => Throw TypeError
      | top0 :: _ =>
          let* offsets := _getOffsets fuel dataL (tempo top0) in
          Ret {| bpm := tempo top0;
                 offset := _floatRound (offsets_offset offsets) (_float this);
                 firstBar :=
                   _floatRound (offsets_firstBar offsets) (_float this) |}
      end
  end.

End Stages.

(** ** Tap tempo *)

Module Tap.

(** What the user's callback receives: a number, or the text ["--"]. *)
Inductive payload : Type :=
| Bpm (n : num)
| Text (s : String.string).

(** The session fields of the instance: [count], [_ts] and [_tapResetId]. *)
Record session : Type := mkSession {
  count : nat;
  ts_current : Z;
  ts_previous : Z;
  ts_first : Z;
  _tapResetId : Z
}.

(** The part of [window] the handler acts on: the pending timeouts (handle
    and due time, in milliseconds; the only timeout callback ever scheduled
    is the session reset), the next handle [setTimeout] returns, and the
    calls made to the user's callback so far, oldest first. *)
Record world : Type := mkWorld {
  tracker : session;
  timers : list (Z * Z);
  next_handle : Z;
  calls : list payload
}.

(** The text delivered when the session is reset. *)
Definition no_data : String.string :=
  let dash := Ascii.Ascii true false true true false true false false in
  String.String dash (String.String dash String.EmptyString).

(** The fields as the class initialises them. *)
Definition initial : world :=
  {| tracker := {| count := 0; ts_current := 0; ts_previous := 0;
                   ts_first := 0; _tapResetId := -1 |};
     timers := []; next_handle := 1; calls := [] |}.

Definition clearTimeout (handle : Z) (pending : list (Z * Z)) : list (Z * Z) :=
  filter (fun t => negb (Z.eqb (fst t) handle)) pending.

Definition of_Z (z : Z) : num := Fin (inject_Z z).

(** The bpm computed at line 492, rounded when [precision] is given. *)
Definition tap_bpm (precision : option Z) (count : nat) (current first : Z)
  : num :=
  let bpm := (Fin 60000 * of_nat count / (of_Z current - of_Z first))%num in
  match precision with
  | Some p => _floatRound bpm p
  | None => bpm
  end.

(** [_tapBpm], lines 483-509, run when [Date.now()] is [now]. *)
Definition _tapBpm (precision : option Z) (now : Z) (w : world) : world :=
  let s := tracker w in
  let pending := clearTimeout (_tapResetId s) (timers w) in
  let current := now in
  let first := if (ts_first s =? 0)%Z then current else ts_first s in
  let calls' :=
    if negb (ts_previous s =? 0)%Z
    then calls w ++ [Bpm (tap_bpm precision (count s) current first)]
    else calls w in
  let handle := next_handle w in
  {| tracker := {| count := S (count s); ts_current := current;
                   ts_previous := current; ts_first := first;
                   _tapResetId := handle |};
     timers := pending ++ [(handle, now + 5000)%Z];
     next_handle := (handle + 1)%Z;
     calls := calls' |}.

(** The timeout with the given handle fires at time [now]: possible only
    when it is pending and due.  It runs the callback of lines 502-508. *)
Definition timeout_fires (handle now : Z) (w : world) : option world :=
  if existsb (fun t => Z.eqb (fst t) handle && (snd t <=? now)%Z) (timers w)
  then Some {| tracker := {| count := 0; ts_current := 0; ts_previous := 0;
                             ts_first := 0;
                             _tapResetId := _tapResetId (tracker w) |};
               timers := clearTimeout handle (timers w);
               next_handle := next_handle w;
               calls := calls w ++ [Text no_data] |}
  else None.


(** A world between sessions: counters at zero, no timeout pending. *)
Definition fresh (w : world) : Prop :=
  count (tracker w) = O /\ ts_current (tracker w) = 0%Z
  /\ ts_previous (tracker w) = 0%Z /\ ts_first (tracker w) = 0%Z
  /\ timers w = [].


End Tap.

(** ** Tap tempo: histories *)

Module TapHistory.

(** What can happen to the tracker: a click handled at [Date.now() = now],
    or the event loop trying to run the timeout with some handle at time
    [now] (nothing happens unless that timeout is pending and due). *)
Inductive event : Type :=
| Click (now : Z)
| Expire (handle now : Z).

Definition step (precision : option Z) (w : Tap.world) (e : event)
  : Tap.world :=
  match e with
  | Click now => Tap._tapBpm precision now w
  | Expire handle now =>
      match Tap.timeout_fires handle now w with
      | Some w' => w'
      | None => w
      end
  end.

Definition run (precision : option Z) (events : list event) (w : Tap.world)
  : Tap.world :=
  fold_left (step precision) events w.

(** The shape of the tracker in every history: either at rest (counters at
    zero, nothing pending) or counting, with exactly one timeout pending,
    the one whose handle it holds, due 5000 ms after the latest tap. *)
Definition settled (w : Tap.world) : Prop :=
  Tap.fresh w
  \/ ((1 <= Tap.count (Tap.tracker w))%nat
      /\ Tap.ts_previous (Tap.tracker w) = Tap.ts_current (Tap.tracker w)
      /\ Tap.timers w
         = [(Tap._tapResetId (Tap.tracker w),
             (Tap.ts_current (Tap.tracker w) + 5000)%Z)]).

End TapHistory.

(** ** The beat map generator *)

(** [Math.min] on two arguments and [Math.floor]. *)
Definition Math_min (x y : num) : num :=
  match x, y with
  | NaN, _ | _, NaN => NaN
  | NInf, _ | _, NInf => NInf
  | PInf, z | z, PInf => z
  | Fin a, Fin b => Fin (if Qleb a b then a else b)
  end.

Definition Math_floor (x : num) : num :=
  match x with
  | Fin a => Fin (inject_Z (Qfloor a))
  | _ => x
  end.

Module BeatMap.

Inductive Lane : Type := left | right.
Inductive NoteType : Type := tap | hold.

Record NoteInfo : Type := mkNote { time : num; lane : Lane; type : NoteType }.

(** The state of the loop of [generateBeatMap]: the time reached, the notes
    pushed so far, and the number of calls made to [Math.random]. *)
Record cursor : Type := mkCursor {
  currentTime : num;
  notes : list NoteInfo;
  drawn : nat
}.

Section Generator.
(** [Math.sin] and [Math.PI] are taken as given; [random k] is the value of
    the call number [k] to [Math.random]. *)
Variable Math_sin : num -> num.
Variable Math_PI : num.
Variable random : nat -> num.

(** The fields [bpm], [offset] and [firstBar] the constructor copies. *)
Variable this : BeatInfo.

(** [calculateNoteProbability], lines 45-51. *)
Definition calculateNoteProbability (time : num) : num :=
  let baseProbability := Fin (6 # 10) in
  let rhythmicVariation :=
    (Math_sin (time * Math_PI / Fin 2) * Fin (2 # 10))%num in
  Math_min (Fin 1) (max (Fin (2 # 10)) (baseProbability + rhythmicVariation)%num).

Definition subdivisions : Float32Array := [Fin (25 # 100); Fin (5 # 10); Fin 1].

(** One turn of the loop of lines 24-40. *)
Definition beat_step (beatInterval : num) (c : cursor) : cursor :=
  let noteGenerationProbability := calculateNoteProbability (currentTime c) in
  let c1 :=
    if (random (drawn c) <? noteGenerationProbability)%num
    then {| currentTime := currentTime c;
            notes :=
              notes c
              ++ [{| time := currentTime c;
                     lane := if (random (1 + drawn c) >? Fin (5 # 10))%num
                             then left else right;
                     type := if (random (2 + drawn c) >? Fin (8 # 10))%num
                             then hold else tap |}];
            drawn := 3 + drawn c |}
    else {| currentTime := currentTime c; notes := notes c;
            drawn := 1 + drawn c |} in
  let subdivision :=
    get subdivisions
      (Math_floor (random (drawn c1) * of_nat (length subdivisions))%num) in
  {| currentTime := (currentTime c1 + beatInterval * subdivision)%num;
     notes := notes c1;
     drawn := 1 + drawn c1 |}.

(** The loop, before the final sort. *)
Definition beat_loop (fuel : nat) (duration : num) : res cursor :=
  let beatInterval := (Fin 60 / bpm this)%num in
  while_loop fuel (fun c => (currentTime c <? duration)%num)
    (beat_step beatInterval)
    {| currentTime := (firstBar this + offset this)%num;
       notes := []; drawn := 0 |}.

(** [generateBeatMap], lines 18-43. *)
Definition generateBeatMap (fuel : nat) (duration : num)
  : res (list NoteInfo) :=
  let* c := beat_loop fuel duration in
  Ret (sort (fun a b => (time a - time b)%num) (notes c)).

End Generator.

End BeatMap.

(** ** The game: rating and scoring a key press *)

Module Game.

Inductive AccuracyRating : Type := Miss | Good | Perfect | Excellent.

Inductive GameStatus : Type := waiting | playing | finished.

(** The component state the callbacks read and write.  The score only ever
    changes by whole points and is kept as an integer. *)
Record state : Type := mkState {
  beatMap : list BeatMap.NoteInfo;
  currentTime : num;
  score : Z;
  combo : nat;
  maxCombo : nat;
  isPlaying : bool;
  gameStatus : GameStatus;
  lastAccuracy : option AccuracyRating
}.

(** The keys ["d"] and ["k"]. *)
Definition key_d : String.string :=
  String.String (Ascii.ascii_of_nat 100) String.EmptyString.

Definition key_k : String.string :=
  String.String (Ascii.ascii_of_nat 107) String.EmptyString.

(** [calculateAccuracy], lines 113-129. *)
Definition calculateAccuracy (noteTime currentTime : num) : AccuracyRating :=
  let timeDiff := abs (noteTime - currentTime)%num in
  if (timeDiff <=? Fin (4 # 100))%num then Excellent
  else if (timeDiff <=? Fin (1 # 10))%num then Perfect
  else if (timeDiff <=? Fin (25 # 100))%num then Good
  else Miss.

(** The table [accuracyScores], lines 147-152. *)
Definition points (a : AccuracyRating) : Z :=
  match a with
  | Excellent => 50
  | Perfect => 30
  | Good => 10
  | Miss => -20
  end.

Definition comboMultiplier (a : AccuracyRating) : Q :=
  match a with
  | Excellent => 15 # 10
  | Perfect => 12 # 10
  | Good => 1
  | Miss => 0
  end.

(** The test [isHit] of lines 138-141. *)
Definition isHit (key : String.string) (now : num) (note : BeatMap.NoteInfo)
  : bool :=
  (abs (BeatMap.time note - now) <=? Fin (25 # 100))%num
  && ((String.eqb key key_d
       && match BeatMap.lane note with BeatMap.left => true | _ => false end)
      || (String.eqb key key_k
          && match BeatMap.lane note with
             | BeatMap.right => true
             | _ => false
             end)).

(** What the callback of [beatMap.filter] does to the scoring variables on
    one note, lines 143-163; [hitNote] is the flag of line 135. *)
Record tally : Type := mkTally {
  t_score : Z;
  t_combo : nat;
  t_maxCombo : nat;
  t_lastAccuracy : option AccuracyRating;
  hitNote : bool
}.

Definition visit (key : String.string) (now : num) (t : tally)
  (note : BeatMap.NoteInfo) : tally :=
  if isHit key now note
  then let accuracy := calculateAccuracy (BeatMap.time note) now in
       let combo' :=
         if Qltb 0 (comboMultiplier accuracy) then S (t_combo t) else O in
       {| t_score := (t_score t + points accuracy)%Z;
          t_combo := combo';
          t_maxCombo := Nat.max (t_maxCombo t) combo';
          t_lastAccuracy := Some accuracy;
          hitNote := true |}
  else t.

(** [handleKeyPress], lines 131-174. *)
Definition handleKeyPress (key : String.string) (s : state) : state :=
  if negb (isPlaying s) then s
  else
    let t :=
      fold_left (visit key (currentTime s)) (beatMap s)
        {| t_score := score s; t_combo := combo s;
           t_maxCombo := maxCombo s; t_lastAccuracy := lastAccuracy s;
           hitNote := false |} in
    let kept := filter (fun note => negb (isHit key (currentTime s) note))
                  (beatMap s) in
    if hitNote t
    then {| beatMap := kept; currentTime := currentTime s;
            score := t_score t; combo := t_combo t;
            maxCombo := t_maxCombo t; isPlaying := isPlaying s;
            gameStatus := gameStatus s;
            lastAccuracy := t_lastAccuracy t |}
    else {| beatMap := kept; currentTime := currentTime s;
            score := Z.max 0 (t_score t - 5); combo := O;
            maxCombo := t_maxCombo t; isPlaying := isPlaying s;
            gameStatus := gameStatus s;
            lastAccuracy := Some Miss |}.

(** [endGame], lines 100-111, on the component state (stopping the audio
    source and cancelling the animation frame are left out). *)
Definition endGame (s : state) : state :=
  {| beatMap := beatMap s; currentTime := currentTime s; score := score s;
     combo := combo s; maxCombo := maxCombo s; isPlaying := false;
     gameStatus := finished; lastAccuracy := lastAccuracy s |}.

(** The frame callback [updateTime], lines 80-92, when the audio clock
    reads [elapsed] after the start; [duration] is [buffer.duration]. *)
Definition updateTime (duration elapsed : num) (s : state) : state :=
  if isPlaying s
  then let s1 :=
         {| beatMap := beatMap s; currentTime := elapsed; score := score s;
            combo := combo s; maxCombo := maxCombo s;
            isPlaying := isPlaying s; gameStatus := gameStatus s;
            lastAccuracy := lastAccuracy s |} in
       if (length (beatMap s1) =? 0)%nat && (elapsed >=? duration)%num
       then endGame s1
       else s1
  else s.

(** Frames move the clock; key presses come in between. *)
Inductive event : Type :=
| Frame (elapsed : num)
| KeyDown (key : String.string).

Definition step (duration : num) (s : state) (e : event) : state :=
  match e with
  | Frame elapsed => updateTime duration elapsed s
  | KeyDown key => handleKeyPress key s
  end.

Definition play (duration : num) (events : list event) (s : state) : state :=
  fold_left (step duration) events s.

(** The component when [startGame] has started the audio, lines 74-78:
    the variables still have their initial values and the beat map is the
    one in place at that moment.  ([onMount] assigns the generated map
    asynchronously, line 49; the histories of [play] start once it is in
    place and hold no later assignment.) *)
Definition started (map : list BeatMap.NoteInfo) : state :=
  {| beatMap := map; currentTime := Fin 0; score := 0; combo := 0;
     maxCombo := 0; isPlaying := true; gameStatus := playing;
     lastAccuracy := None |}.

(** The notes a key press hits, in the order of the beat map. *)
Definition hits (key : String.string) (s : state) : list BeatMap.NoteInfo :=
  filter (isHit key (currentTime s)) (beatMap s).

(** The rating a hit note gets. *)
Definition rating (s : state) (note : BeatMap.NoteInfo) : AccuracyRating :=
  calculateAccuracy (BeatMap.time note) (currentTime s).

End Game.

(** ** The specification's wording

    The readings of the written specification that are compared with the
    program below. *)

(** The band test as the design notes describe it: true whenever
    [offset >= refOffset], and below [refOffset] only within 0.05. *)
Definition band_spec (offset refOffset : Q) : Prop :=
  refOffset <= offset \/ (offset < refOffset /\ refOffset - offset < 5 # 100).


(** The number of peaks kept out of [n]: [floor(n * 0.5)], but at least
    one. *)
Definition keep_count_spec (n : nat) : nat := Nat.max 1 (n / 2).

(** The number of windows of a channel of [len] samples: only complete
    windows count. *)
Definition window_count_spec (this : BeatDetect) (len : nat) : nat :=
  Z.to_nat (Qfloor (inject_Z (Z.of_nat len) / (_sampleRate this / 2))).

(** ** Vocabulary of the statements *)

(** The number of windows the two scans visit: every window that starts
    inside the channel, the last one possibly incomplete. *)
Definition window_count (this : BeatDetect) (len : nat) : nat :=
  Z.to_nat (Qceiling (inject_Z (Z.of_nat len) / (_sampleRate this / 2))).

(** The fuel that suffices for the scans of a channel of [len] samples. *)
Definition scan_fuel (this : BeatDetect) (len : nat) : nat :=
  S (Nat.max (window_count this len)
       (Z.to_nat (Qceiling (_sampleRate this / 2)))).

(** The peak every window starts from. *)
Definition peak0 : Peak := {| position := Fin 0; volume := Fin 0 |}.

(** A channel all of whose samples are zero. *)
Definition silent (data : Float32Array) : Prop :=
  Forall (fun x => (x =? Fin 0)%num = true) data.


(** The orders the two sorts of [_getPeaks] establish. *)
Definition louder_first (a b : Peak) : Prop :=
  (volume b - volume a >? Fin 0)%num = false.

Definition earlier_first (a b : Peak) : Prop :=
  (position a - position b >? Fin 0)%num = false.

(** A small configuration for worked examples: four samples a second, so
    two samples a window. *)
Definition rate4 : BeatDetect :=
  {| _sampleRate := 4; _round := false; _float := 8;
     _bpmRange := (90, 180); _timeSignature := 4 |}.

(** A short clicking track at four samples a second: silence, then a click
    at samples 3 and 7. *)
Definition clicks : Float32Array :=
  [Fin 0; Fin 0; Fin 0; Fin 1; Fin 0; Fin 0; Fin 0; Fin 1].

(** The threshold of the first-bar scan. *)
Definition quiet (p : Peak) : Prop := (volume p <? Fin (2 # 100))%num = true.

Definition audible (p : Peak) : Prop :=
  (volume p >=? Fin (2 # 100))%num = true.



(** Three peaks half a second apart at the default rate, and two peaks at
    the same position. *)
Definition three_peaks : list Peak :=
  [{| position := Fin 0; volume := Fin 1 |};
   {| position := Fin 22050; volume := Fin 1 |};
   {| position := Fin 44100; volume := Fin 1 |}].


(** Two seconds of silence at the default rate. *)
Definition silence : Float32Array := repeat (Fin 0) (Z.to_nat 88200).



(** ** Vocabulary of the further statements *)

(** The number of intervals the clusterer examines on [n] peaks: up to nine
    for each peak. *)
Definition interval_count (n : nat) : nat :=
  list_sum (map (fun index => Nat.min 9 (n - 1 - index)) (seq 0 n)).

Definition total_count (groups : list IntervalGroup) : nat :=
  list_sum (map count groups).

(** The magnitude [_getPeaks] compares at the sample index [k]. *)
Definition sample_volume (data : Float32Array * Float32Array) (k : nat) : num :=
  max (abs (get (fst data) (of_nat k))) (abs (get (snd data) (of_nat k))).

(** The peaks [_getPeaks] drops: what the [splice] leaves behind in the
    list sorted by volume. *)
Definition dropped_peaks (peaks : list Peak) : list Peak :=
  skipn (length peaks / 2)
    (sort (fun a b => (volume b - volume a)%num) peaks).

(** What the peak [p] of the window [i] of [n] samples should be: no sample
    of the window is louder; and either no sample of the window is above
    zero and [p] is the starting peak, or [p] was read at the first sample
    of the window that reaches its volume, which is above zero. *)
Definition window_maximum (data : Float32Array * Float32Array) (n i : nat)
  (p : Peak) : Prop :=
  (forall k, (i * n <= k < (i + 1) * n)%nat ->
             (sample_volume data k >? volume p)%num = false)
  /\ ((p = peak0
       /\ forall k, (i * n <= k < (i + 1) * n)%nat ->
                    (sample_volume data k >? Fin 0)%num = false)
      \/ exists k, (i * n <= k < (i + 1) * n)%nat
                   /\ same (position p) (of_nat k)
                   /\ volume p = sample_volume data k
                   /\ (volume p >? Fin 0)%num = true
                   /\ forall k', (i * n <= k' < k)%nat ->
                                 (sample_volume data k' >=? volume p)%num
                                 = false).

(** The group an interval creates, and a group after it received a vote
    (lines 376-383 and 394-395). *)
Definition new_group (this : BeatDetect) (peak : Peak) (t : num)
  : IntervalGroup :=
  {| tempo := round_tempo this t; count := 1;
     group_position := position peak; peaks := [] |}.

Definition voted (interval : IntervalGroup) (peak : Peak) : IntervalGroup :=
  {| tempo := tempo interval; count := S (count interval);
     group_position := group_position interval;
     peaks := peaks interval ++ [peak] |}.

(** [l] is [m] with some elements left out, the others in the same
    order. *)
Inductive subseq {A : Type} : list A -> list A -> Prop :=
| subseq_nil : subseq [] []
| subseq_skip x l m : subseq l m -> subseq l (x :: m)
| subseq_keep x l m : subseq l m -> subseq (x :: l) (x :: m).

(** The points the notes hit by one key press add to the score. *)
Definition hit_points (s : Game.state) (h : list BeatMap.NoteInfo) : Z :=
  fold_right Z.add 0%Z (map (fun note => Game.points (Game.rating s note)) h).

(** The properties of the game state that hold throughout a game played
    on the beat map [map]. *)
Definition fair_score (map : list BeatMap.NoteInfo) (s : Game.state) : Prop :=
  (0 <= Game.score s)%Z
  /\ (Game.combo s <= Game.maxCombo s)%nat
  /\ (Game.maxCombo s + length (Game.beatMap s) <= length map)%nat
  /\ (Game.score s
      <= 50 * (Z.of_nat (length map) - Z.of_nat (length (Game.beatMap s))))%Z
  /\ subseq (Game.beatMap s) map.

(** Two notes, the second at least [gap] seconds after the first. *)
Definition apart (gap : Q) (a b : BeatMap.NoteInfo) : Prop :=
  exists ta tb,
    BeatMap.time a = Fin ta /\ BeatMap.time b = Fin tb /\ ta + gap <= tb.

(** A note on the grid of step [gap] that starts at [start], before
    [finish]. *)
Definition on_grid (start gap finish : Q) (note : BeatMap.NoteInfo) : Prop :=
  exists (k : nat) (u : Q),
    BeatMap.time note = Fin u
    /\ u == start + inject_Z (Z.of_nat k) * gap /\ u < finish.

(** A note at a finite time from [start] on and before [finish]. *)
Definition in_time (start finish : Q) (note : BeatMap.NoteInfo) : Prop :=
  exists u, BeatMap.time note = Fin u /\ start <= u /\ u < finish.

(** Two notes at finite times, the second not before the first. *)
Definition not_before (a b : BeatMap.NoteInfo) : Prop :=
  exists ta tb,
    BeatMap.time a = Fin ta /\ BeatMap.time b = Fin tb /\ ta <= tb.

(** A value [Math.random] can return. *)
Definition unit_interval (x : num) : Prop :=
  exists r, x = Fin r /\ 0 <= r /\ r < 1.

(** A payload other than the number NaN. *)
Definition not_nan (c : Tap.payload) : Prop :=
  match c with
  | Tap.Bpm NaN => False
  | _ => True
  end.

(** What holds at the head of the generator's loop: the time reached is on
    the grid, every note pushed so far is on the grid before the end and at
    least one step before the time reached, and the notes are in increasing
    time. *)
Definition at_head (start gap finish : Q) (c : BeatMap.cursor) : Prop :=
  exists (k : nat) (t : Q),
    BeatMap.currentTime c = Fin t
    /\ t == start + inject_Z (Z.of_nat k) * gap
    /\ Forall (on_grid start gap finish) (BeatMap.notes c)
    /\ Forall (fun note => exists u, BeatMap.time note = Fin u
                                     /\ u + gap <= t)
         (BeatMap.notes c)
    /\ StronglySorted (apart gap) (BeatMap.notes c).

(** A bound on the number of turns the generator's loop still makes. *)
Definition turns_left (gap finish : Q) (c : BeatMap.cursor) : nat :=
  match BeatMap.currentTime c with
  | Fin t => Z.to_nat (Qceiling ((finish - t) / gap))
  | _ => O
  end.

(** ** Numbers: basic facts *)

Lemma Qltb_lt (a b : Q) : Qltb a b = true <-> a < b.
Proof.
  unfold Qltb. rewrite Qlt_alt. destruct (a ?= b); intuition discriminate.
Qed.

Lemma Qleb_le (a b : Q) : Qleb a b = true <-> a <= b.
Proof.
  unfold Qleb. rewrite Qle_alt. destruct (a ?= b); intuition discriminate.
Qed.

Lemma Qeqb_eq (a b : Q) : Qeqb a b = true <-> a == b.
Proof.
  unfold Qeqb. rewrite Qeq_alt. destruct (a ?= b); intuition discriminate.
Qed.

Lemma Qltb_ge (a b : Q) : Qltb a b = false <-> b <= a.
Proof.
  rewrite <- not_true_iff_false, Qltb_lt. split; intro H.
  - apply Qnot_lt_le, H.
  - apply Qle_not_lt, H.
Qed.

Lemma Qleb_gt (a b : Q) : Qleb a b = false <-> b < a.
Proof.
  rewrite <- not_true_iff_false, Qleb_le. split; intro H.
  - apply Qnot_le_lt, H.
  - apply Qlt_not_le, H.
Qed.

Lemma Qeqb_neq (a b : Q) : Qeqb a b = false <-> ~ a == b.
Proof. rewrite <- not_true_iff_false, Qeqb_eq. tauto. Qed.

(** Turn the boolean comparisons of rationals in the context and the goal
    into propositions. *)
Ltac qprop :=
  repeat match goal with
  | H : Qltb _ _ = true |- _ => rewrite Qltb_lt in H
  | H : Qltb _ _ = false |- _ => rewrite Qltb_ge in H
  | H : Qleb _ _ = true |- _ => rewrite Qleb_le in H
  | H : Qleb _ _ = false |- _ => rewrite Qleb_gt in H
  | H : Qeqb _ _ = true |- _ => rewrite Qeqb_eq in H
  | H : Qeqb _ _ = false |- _ => rewrite Qeqb_neq in H
  | |- Qltb _ _ = true => rewrite Qltb_lt
  | |- Qltb _ _ = false => rewrite Qltb_ge
  | |- Qleb _ _ = true => rewrite Qleb_le
  | |- Qleb _ _ = false => rewrite Qleb_gt
  | |- Qeqb _ _ = true => rewrite Qeqb_eq
  | |- Qeqb _ _ = false => rewrite Qeqb_neq
  end.

Lemma div_fin (a b : Q) : ~ b == 0 -> (Fin a / Fin b)%num = Fin (a / b).
Proof.
  intro H. unfold div. apply Qeqb_neq in H. now rewrite H.
Qed.

Lemma div_zero_pos (a b : Q) : 0 < a -> b == 0 -> (Fin a / Fin b)%num = PInf.
Proof.
  intros Ha Hb. unfold div. apply Qeqb_eq in Hb. rewrite Hb.
  apply Qgt_alt in Ha. now rewrite Ha.
Qed.

(** ** The band test (C4) *)

Lemma in_band_fin (offset refOffset : Q) :
  in_band (Fin offset) (Fin refOffset) = true <-> offset - refOffset < 5 # 100.
Proof.
  unfold in_band, gt, sub; simpl. rewrite orb_true_iff. split.
  - intros [H | H]; qprop; lra.
  - intro H. left. qprop. lra.
Qed.

(** C4, as amended.  On finite offsets the band test of [_getOffsets] holds
    exactly when [offset - refOffset < 0.05]: the two disjuncts say the same
    thing, so the test is always true for [offset <= refOffset] and, above
    [refOffset], true only within 0.05. *)
Theorem in_band_one_sided (offset refOffset : Q) :
  (in_band (Fin offset) (Fin refOffset) = true
     <-> offset - refOffset < 5 # 100)
  /\ (in_band (Fin offset) (Fin refOffset) = true
     <-> offset <= refOffset
         \/ (refOffset < offset /\ offset - refOffset < 5 # 100)).
Proof.
  split; [apply in_band_fin |].
  rewrite in_band_fin. split.
  - intro H. destruct (Qlt_le_dec refOffset offset); [right | left]; lra.
  - intros [H | [_ H]]; lra.
Qed.

(** C4 as the specification words it fails: one beat above the reference
    the test is false although [offset >= refOffset]. *)
Lemma in_band_spec_counterexample :
  ~ (forall offset refOffset : Q,
       in_band (Fin offset) (Fin refOffset) = true
       <-> band_spec offset refOffset).
Proof.
  intro H. specialize (H 1 0).
  assert (Hs : band_spec 1 0) by (left; lra).
  apply H in Hs. vm_compute in Hs. discriminate.
Qed.

Lemma half_pos (a : Q) : 0 < a -> 0 < a / 2.
Proof. intro H. apply Qlt_shift_div_l; lra. Qed.

Lemma partSize_fin (this : BeatDetect) :
  partSize this = Fin (_sampleRate this / 2).
Proof. reflexivity. Qed.

Lemma Qceiling_unique (x : Q) (z : Z) :
  inject_Z (z - 1) < x -> x <= inject_Z z -> Qceiling x = z.
Proof.
  intros Hlo Hhi.
  pose proof (Qle_ceiling x) as H1. pose proof (Qceiling_lt x) as H2.
  pose proof (Qlt_le_trans _ _ _ Hlo H1) as H3.
  pose proof (Qlt_le_trans _ _ _ H2 Hhi) as H4.
  rewrite <- Zlt_Qlt in H3, H4. lia.
Qed.

Lemma inject_Z_pred (z : Z) : inject_Z (z - 1) == inject_Z z - 1.
Proof.
  unfold Z.sub. rewrite inject_Z_plus. reflexivity.
Qed.

Lemma Qceiling_pred (x : Q) : Qceiling (x - 1) = (Qceiling x - 1)%Z.
Proof.
  pose proof (Qle_ceiling x) as H1. pose proof (Qceiling_lt x) as H2.
  rewrite inject_Z_pred in H2.
  apply Qceiling_unique; rewrite !inject_Z_pred; lra.
Qed.

Lemma Qceiling_pos (x : Q) : 0 < x -> (0 < Qceiling x)%Z.
Proof.
  intro H. pose proof (Qle_ceiling x) as H1.
  pose proof (Qlt_le_trans _ _ _ H H1) as H2.
  change 0 with (inject_Z 0) in H2. now rewrite <- Zlt_Qlt in H2.
Qed.

Lemma lt_Qceiling (z : Z) (x : Q) : inject_Z z < x <-> (z < Qceiling x)%Z.
Proof.
  pose proof (Qle_ceiling x) as H1. pose proof (Qceiling_lt x) as H2. split.
  - intro H. rewrite Zlt_Qlt. exact (Qlt_le_trans _ _ _ H H1).
  - intro H. assert (z <= Qceiling x - 1)%Z as H3 by lia.
    rewrite Zle_Qle in H3. exact (Qle_lt_trans _ _ _ H3 H2).
Qed.

(** ** Loops: invariants and termination *)

Section LoopFacts.
Context {I A : Type} (cond : I -> bool) (next : I -> I) (body : I -> A -> res A).

(** What a [for] loop that returns has established. *)
Lemma for_loop_ret (Inv : I -> A -> Prop) :
  (forall i a a',
      Inv i a -> cond i = true -> body i a = Ret a' -> Inv (next i) a') ->
  forall fuel i a r,
    Inv i a -> for_loop fuel cond next body i a = Ret r ->
    exists i', Inv i' r /\ cond i' = false.
Proof.
  intros Hstep. induction fuel as [| fuel IH]; intros i a r Hinv Hrun.
  - discriminate.
  - simpl in Hrun. destruct (cond i) eqn:Hc.
    + destruct (body i a) as [a' | e |] eqn:Hb; simpl in Hrun;
        try discriminate.
      eapply IH; [| exact Hrun]. eauto.
    + injection Hrun as <-. eauto.
Qed.

(** A [for] loop whose body returns and decreases a measure returns. *)
Lemma for_loop_total (Inv : I -> A -> Prop) (m : I -> nat) :
  (forall i a,
      Inv i a -> cond i = true ->
      exists a', body i a = Ret a' /\ Inv (next i) a' /\ (m (next i) < m i)%nat) ->
  forall fuel i a,
    Inv i a -> (m i < fuel)%nat ->
    exists r, for_loop fuel cond next body i a = Ret r.
Proof.
  intros Hstep. induction fuel as [| fuel IH]; intros i a Hinv Hm.
  - lia.
  - simpl. destruct (cond i) eqn:Hc; [| eauto].
    destruct (Hstep i a Hinv Hc) as (a' & Hb & Hinv' & Hlt).
    rewrite Hb. simpl. apply IH; [assumption | lia].
Qed.


End LoopFacts.

Section WhileFacts.
Context {A : Type} (cond : A -> bool) (step : A -> A).

Lemma while_loop_ret (Inv : A -> Prop) :
  (forall x, Inv x -> cond x = true -> Inv (step x)) ->
  forall fuel x r,
    Inv x -> while_loop fuel cond step x = Ret r -> Inv r /\ cond r = false.
Proof.
  intros Hstep. induction fuel as [| fuel IH]; intros x r Hinv Hrun.
  - discriminate.
  - simpl in Hrun. destruct (cond x) eqn:Hc.
    + eapply IH; [| exact Hrun]. auto.
    + injection Hrun as <-. auto.
Qed.

(** A loop whose condition stays true on a set of values closed under the
    step never returns from it. *)
Lemma while_loop_diverges (Stuck : A -> Prop) :
  (forall x, Stuck x -> cond x = true /\ Stuck (step x)) ->
  forall fuel x, Stuck x -> while_loop fuel cond step x = OutOfFuel.
Proof.
  intros Hstuck. induction fuel as [| fuel IH]; intros x Hx; [reflexivity |].
  simpl. destruct (Hstuck x Hx) as [-> Hs]. now apply IH.
Qed.

End WhileFacts.

(** ** The window scans *)

Section ScanFacts.
Variable this : BeatDetect.
Hypothesis rate_pos : 0 < _sampleRate this.
Variable sample : num -> Peak.

(** A property of the starting peak that every recorded sample has holds
    of the peak of the window. *)
Lemma scan_window_ret (P : Peak -> Prop) fuel i p :
  P peak0 ->
  (forall j max,
      P max -> (volume (sample j) >? volume max)%num = true -> P (sample j)) ->
  scan_window this fuel i sample = Ret p -> P p.
Proof.
  intros H0 Hrec Hrun. unfold scan_window in Hrun.
  eapply (for_loop_ret _ _ _ (fun _ max => P max)) in Hrun.
  - now destruct Hrun as (_ & Hp & _).
  - intros j max a' Hmax _ Hbody. injection Hbody as <-.
    destruct (volume (sample j) >? volume max)%num eqn:Hv; eauto.
  - exact H0.
Qed.

Lemma scan_window_total fuel i :
  (Z.to_nat (Qceiling (_sampleRate this / 2)) < fuel)%nat ->
  exists p, scan_window this fuel i sample = Ret p.
Proof.
  intro Hfuel. unfold scan_window. rewrite partSize_fin.
  set (ps := _sampleRate this / 2) in *.
  set (bound := (inject_Z (Z.of_nat i) + 1) * ps).
  change ((of_nat i + Fin 1) * Fin ps)%num with (Fin bound).
  change (of_nat i * Fin ps)%num with (Fin (inject_Z (Z.of_nat i) * ps)).
  apply (for_loop_total _ _ _
           (fun j _ => exists q, j = Fin q)
           (fun j => match j with
                     | Fin q => Z.to_nat (Qceiling (bound - q))
                     | _ => O
                     end)).
  - intros j max [q ->] Hc. simpl in Hc. qprop.
    eexists. split; [reflexivity |]. split; [simpl; eauto |].
    simpl.
    assert (Qceiling (bound - (q + 1)) = Qceiling (bound - q) - 1)%Z as ->.
    { rewrite <- Qceiling_pred. apply Qceiling_comp. ring. }
    assert (0 < Qceiling (bound - q))%Z by (apply Qceiling_pos; lra).
    lia.
  - eexists; reflexivity.
  - assert (Qceiling (bound - inject_Z (Z.of_nat i) * ps) = Qceiling ps) as ->.
    { apply Qceiling_comp. unfold bound. ring. }
    exact Hfuel.
Qed.

Lemma parts_fin len :
  (of_nat len / partSize this)%num
  = Fin (inject_Z (Z.of_nat len) / (_sampleRate this / 2)).
Proof.
  rewrite partSize_fin. unfold of_nat. apply div_fin.
  pose proof (half_pos _ rate_pos) as Hps. intro E. rewrite E in Hps.
  discriminate.
Qed.

Lemma window_cond len i :
  (of_nat i <? of_nat len / partSize this)%num = true
  <-> (i < window_count this len)%nat.
Proof.
  rewrite parts_fin. simpl. rewrite Qltb_lt, lt_Qceiling.
  unfold window_count. lia.
Qed.

Lemma scan_windows_ret (P : Peak -> Prop) fuel len peaks :
  P peak0 ->
  (forall j max,
      P max -> (volume (sample j) >? volume max)%num = true -> P (sample j)) ->
  scan_windows this fuel len sample = Ret peaks ->
  length peaks = window_count this len /\ Forall P peaks.
Proof.
  intros H0 Hrec Hrun. unfold scan_windows in Hrun.
  eapply (for_loop_ret _ _ _
            (fun i acc => length acc = i
                          /\ (i <= window_count this len)%nat
                          /\ Forall P acc)) in Hrun.
  - destruct Hrun as (i' & (Hlen & Hle & Hall) & Hc).
    split; [| exact Hall].
    apply not_true_iff_false in Hc. rewrite window_cond in Hc. lia.
  - intros i acc a' (Hlen & Hle & Hall) Hc Hbody.
    apply window_cond in Hc.
    destruct (scan_window this fuel i sample) as [max | e |] eqn:Hw;
      simpl in Hbody; try discriminate.
    injection Hbody as <-. rewrite length_app. simpl.
    repeat split; try lia.
    apply Forall_app. split; [exact Hall |].
    constructor; [| constructor]. eapply scan_window_ret; eauto.
  - repeat split; [lia | constructor].
Qed.

Lemma scan_windows_total fuel len :
  (scan_fuel this len <= fuel)%nat ->
  exists peaks, scan_windows this fuel len sample = Ret peaks.
Proof.
  unfold scan_fuel. intro Hfuel. unfold scan_windows.
  apply (for_loop_total _ _ _ (fun _ _ => True)
           (fun i => (window_count this len - i)%nat)).
  - intros i acc _ Hc. apply window_cond in Hc.
    destruct (scan_window_total fuel i) as [max Hmax]; [lia |].
    rewrite Hmax. simpl. eexists. repeat split. lia.
  - exact I.
  - lia.
Qed.

End ScanFacts.

(** ** Window counts (C6) *)

Lemma window_count_floor this len :
  (window_count_spec this len <= window_count this len
   <= S (window_count_spec this len))%nat.
Proof.
  unfold window_count_spec, window_count.
  set (x := inject_Z (Z.of_nat len) / (_sampleRate this / 2)).
  pose proof (Qle_floor_ceiling x) as H1.
  pose proof (Qceiling_lt x) as H2. pose proof (Qlt_floor x) as H3.
  pose proof (Qlt_trans _ _ _ H2 H3) as H4.
  rewrite <- Zle_Qle in H1. rewrite <- Zlt_Qlt in H4. lia.
Qed.

(** C6, as amended.  With a positive sample rate and enough fuel, both
    window scans (the one of the peak extractor, before the selection of the
    loudest half, and the one of the phase estimator) return one peak for
    every window that starts inside the channel: [ceil (L / w)] peaks for
    [L] samples and windows of [w = sampleRate / 2] samples, the last,
    incomplete window included; that is the number of complete windows or
    one more. *)
Theorem window_scans_count this data bpm fuel :
  0 < _sampleRate this ->
  (scan_fuel this (length (fst data)) <= fuel)%nat ->
  (exists peaks,
      window_peaks this fuel data = Ret peaks
      /\ length peaks = window_count this (length (fst data)))
  /\ (exists peaks,
         offset_peaks this fuel (fst data) bpm = Ret peaks
         /\ length peaks = window_count this (length (fst data)))
  /\ (window_count_spec this (length (fst data))
      <= window_count this (length (fst data))
      <= S (window_count_spec this (length (fst data))))%nat.
Proof.
  intros Hrate Hfuel. repeat split.
  - unfold window_peaks.
    destruct (scan_windows_total this Hrate
                (fun j =>
                   {| position := j;
                      volume := max (abs (get (fst data) j))
                                  (abs (get (snd data) j)) |})
                fuel _ Hfuel) as [peaks Hp].
    exists peaks. split; [exact Hp |].
    eapply (scan_windows_ret this Hrate _ (fun _ => True)); eauto.
  - unfold offset_peaks.
    match goal with
    | |- exists _, scan_windows _ _ _ ?f = _ /\ _ =>
        destruct (scan_windows_total this Hrate f fuel _ Hfuel) as [peaks Hp]
    end.
    exists peaks. split; [exact Hp |].
    eapply (scan_windows_ret this Hrate _ (fun _ => True)); eauto.
  - apply window_count_floor.
  - apply window_count_floor.
Qed.

Lemma window_scans_count_witness :
  0 < _sampleRate rate4
  /\ (scan_fuel rate4 3 <= 10)%nat
  /\ (exists peaks,
         window_peaks rate4 10 ([Fin 0; Fin 0; Fin 1], [Fin 0; Fin 0; Fin 1])
         = Ret peaks
         /\ length peaks = 2%nat).
Proof.
  assert (H1 : 0 < _sampleRate rate4) by reflexivity.
  assert (H2 : (scan_fuel rate4 3 <= 10)%nat) by (vm_compute; lia).
  split; [exact H1 |]. split; [exact H2 |].
  exact (proj1 (window_scans_count rate4
                  ([Fin 0; Fin 0; Fin 1], [Fin 0; Fin 0; Fin 1])
                  (Fin 120) 10 H1 H2)).
Defined.

(** C6 as the specification words it fails: three samples at two samples a
    window give two peaks, the second one for the incomplete window, where
    the floor division counts one window. *)
Lemma window_count_counterexample :
  exists peaks,
    window_peaks rate4 10 ([Fin 0; Fin 0; Fin 1], [Fin 0; Fin 0; Fin 1])
    = Ret peaks
    /\ length peaks = 2%nat
    /\ window_count_spec rate4 3 = 1%nat
    /\ existsb (fun p => (position p =? Fin 2)%num && (volume p =? Fin 1)%num)
         peaks = true.
Proof.
  eexists. split; [vm_compute; reflexivity |]. repeat split.
Qed.

(** ** Silent input (C7) *)

Lemma silent_get data j :
  silent data ->
  get data j = NaN \/ exists q, get data j = Fin q /\ q == 0.
Proof.
  intro Hs. destruct j as [q | | |]; simpl; auto.
  destruct (Qeqb q (inject_Z (Qfloor q)) && (0 <=? Qfloor q)%Z); auto.
  destruct (nth_in_or_default (Z.to_nat (Qfloor q)) data NaN) as [Hin | ->];
    auto.
  unfold silent in Hs. rewrite Forall_forall in Hs. apply Hs in Hin.
  destruct (nth (Z.to_nat (Qfloor q)) data NaN) as [a | | |];
    simpl in Hin; try discriminate.
  right. exists a. split; [reflexivity |]. now apply Qeqb_eq.
Qed.

Lemma silent_volume dataL dataR j :
  silent dataL -> silent dataR ->
  (max (abs (get dataL j)) (abs (get dataR j)) >? Fin 0)%num = false.
Proof.
  intros HL HR.
  destruct (silent_get dataL j HL) as [-> | (a & -> & Ha)];
    destruct (silent_get dataR j HR) as [-> | (b & -> & Hb)];
    try reflexivity.
  unfold gt. simpl. qprop.
  destruct (Qleb (Qabs a) (Qabs b)); [rewrite Hb | rewrite Ha];
    discriminate.
Qed.

Lemma Forall_eq_repeat {A : Type} (x : A) (l : list A) :
  Forall (fun y => y = x) l -> l = repeat x (length l).
Proof.
  induction 1 as [| y l -> _ IH]; simpl; [reflexivity | now f_equal].
Qed.

(** Every window of a silent buffer leaves the starting peak untouched. *)
Lemma window_peaks_silent this data fuel peaks :
  0 < _sampleRate this ->
  silent (fst data) -> silent (snd data) ->
  window_peaks this fuel data = Ret peaks ->
  peaks = repeat peak0 (window_count this (length (fst data))).
Proof.
  intros Hrate HL HR Hrun. unfold window_peaks in Hrun.
  eapply (scan_windows_ret this Hrate _ (fun p => p = peak0)) in Hrun.
  - destruct Hrun as [<- Hall]. now apply Forall_eq_repeat.
  - reflexivity.
  - intros j max -> Hv.
    pose proof (eq_trans (eq_sym Hv) (silent_volume _ _ j HL HR)) as E.
    discriminate E.
Qed.

Lemma window_peaks_total this data fuel :
  0 < _sampleRate this ->
  (scan_fuel this (length (fst data)) <= fuel)%nat ->
  exists peaks, window_peaks this fuel data = Ret peaks.
Proof.
  intros Hrate Hfuel. now apply scan_windows_total.
Qed.

(** C7, on the program.  For a fully silent buffer the extractor does emit
    one peak of volume 0 for every window, but each of them keeps the
    position 0 of the starting peak: the comparison [volume > max.volume]
    never succeeds and the test [!max] never fires.  From the second window
    on, the position is not the window's first sample. *)
Theorem silent_window_peaks this data fuel :
  0 < _sampleRate this ->
  silent (fst data) -> silent (snd data) ->
  (scan_fuel this (length (fst data)) <= fuel)%nat ->
  window_peaks this fuel data
  = Ret (repeat peak0 (window_count this (length (fst data)))).
Proof.
  intros Hrate HL HR Hfuel.
  destruct (window_peaks_total this data fuel Hrate Hfuel) as [peaks Hp].
  rewrite Hp. f_equal. eapply window_peaks_silent; eauto.
Qed.

Lemma silent_window_peaks_witness :
  window_peaks rate4 10 (repeat (Fin 0) 4, repeat (Fin 0) 4)
  = Ret [peak0; peak0].
Proof.
  apply (silent_window_peaks rate4 (repeat (Fin 0) 4, repeat (Fin 0) 4) 10).
  - reflexivity.
  - repeat constructor.
  - repeat constructor.
  - vm_compute. lia.
Defined.

(** ** Sorting and the selection of the loudest half (C5) *)

Section SortFacts.
Context {A : Type} (cmp : A -> A -> num).

Let before (a b : A) : Prop := (cmp a b >? Fin 0)%num = false.

Lemma sort_insert_perm x l : Permutation (x :: l) (sort_insert cmp x l).
Proof.
  induction l as [| y ys IH]; cbn [sort_insert]; [reflexivity |].
  destruct (cmp x y >? Fin 0)%num; [| reflexivity].
  rewrite perm_swap. now constructor.
Qed.

Lemma sort_perm l : Permutation l (sort cmp l).
Proof.
  induction l as [| x l IH]; cbn [sort fold_right]; [constructor |].
  fold (sort cmp l). rewrite <- sort_insert_perm. now constructor.
Qed.

Lemma sort_length l : length (sort cmp l) = length l.
Proof. symmetry. apply Permutation_length, sort_perm. Qed.

Hypothesis cmp_antisym :
  forall a b, (cmp a b >? Fin 0)%num = true -> (cmp b a >? Fin 0)%num = false.

Lemma sort_insert_sorted x l :
  Sorted before l -> Sorted before (sort_insert cmp x l).
Proof.
  induction 1 as [| y ys Hs IH Hhd]; cbn [sort_insert].
  - repeat constructor.
  - destruct (cmp x y >? Fin 0)%num eqn:Hc.
    + constructor; [exact IH |].
      destruct ys as [| z zs]; cbn [sort_insert].
      * constructor. now apply cmp_antisym.
      * destruct (cmp x z >? Fin 0)%num.
        -- constructor. now inversion Hhd.
        -- constructor. now apply cmp_antisym.
    + constructor; [now constructor | now constructor].
Qed.

Lemma sort_sorted l : Sorted before (sort cmp l).
Proof.
  induction l as [| x l IH]; cbn [sort fold_right]; [constructor |].
  now apply sort_insert_sorted.
Qed.

End SortFacts.

Lemma sub_antisym (x y : num) :
  (x - y >? Fin 0)%num = true -> (y - x >? Fin 0)%num = false.
Proof.
  destruct x as [a | | |], y as [b | | |]; simpl; try discriminate;
    try reflexivity.
  unfold gt; simpl. intro H. qprop. lra.
Qed.

Lemma to_count_half (n : nat) :
  to_count (of_nat n * Fin (1 # 2))%num n = (n / 2)%nat.
Proof.
  unfold to_count, of_nat, mul, inject_Z, Qmult, Qfloor. simpl Qnum. simpl Qden.
  rewrite Z.mul_1_r. change (Z.pos (1 * 2)) with (Z.of_nat 2).
  rewrite <- Nat2Z.inj_div, Nat2Z.id.
  apply Nat.min_l. apply Nat.Div0.div_le_upper_bound. lia.
Qed.

Lemma select_peaks_length peaks :
  length (select_peaks peaks) = (length peaks / 2)%nat.
Proof.
  unfold select_peaks, splice0.
  rewrite sort_length, to_count_half, sort_length, length_firstn, sort_length.
  apply Nat.min_l. apply Nat.Div0.div_le_upper_bound. lia.
Qed.

(** C5, as amended.  Out of [n] window peaks the extractor keeps exactly
    [floor (n / 2)] (none when [n = 1]): the first [floor (n / 2)] of the
    peaks in the stable order of decreasing volume, put back in the order
    of increasing position. *)
Theorem select_peaks_half (peaks : list Peak) :
  let loud := sort (fun a b => (volume b - volume a)%num) peaks in
  length (select_peaks peaks) = (length peaks / 2)%nat
  /\ Permutation (select_peaks peaks) (firstn (length peaks / 2) loud)
  /\ Sorted earlier_first (select_peaks peaks)
  /\ Permutation peaks loud
  /\ Sorted louder_first loud.
Proof.
  intro loud. split; [apply select_peaks_length |]. split; [| split; [| split]].
  - unfold select_peaks, splice0.
    rewrite sort_length, to_count_half.
    symmetry. apply sort_perm.
  - unfold select_peaks. apply sort_sorted.
    intros a b. apply sub_antisym.
  - apply sort_perm.
  - apply sort_sorted. intros a b. apply sub_antisym.
Qed.

(** C5 as the specification words it fails: of a single window peak none
    is kept. *)
Lemma select_peaks_counterexample :
  let peaks := [{| position := Fin 3; volume := Fin 1 |}] in
  select_peaks peaks = []
  /\ length (select_peaks peaks) <> keep_count_spec (length peaks).
Proof.
  split; [reflexivity | vm_compute; discriminate].
Qed.

(** ** The first-bar scan (C10) *)

Lemma scan_windows_all this sample (P : Peak -> Prop) fuel len peaks :
  P peak0 ->
  (forall j max,
      P max -> (volume (sample j) >? volume max)%num = true -> P (sample j)) ->
  scan_windows this fuel len sample = Ret peaks ->
  Forall P peaks.
Proof.
  intros H0 Hrec Hrun. unfold scan_windows in Hrun.
  eapply (for_loop_ret _ _ _ (fun _ acc => Forall P acc)) in Hrun.
  - now destruct Hrun as (_ & Hall & _).
  - intros i acc a' Hall _ Hbody.
    destruct (scan_window this fuel i sample) as [max | e |] eqn:Hw;
      simpl in Hbody; try discriminate.
    injection Hbody as <-. apply Forall_app. split; [exact Hall |].
    constructor; [| constructor]. eapply scan_window_ret; eauto.
  - constructor.
Qed.

Lemma gt_not_nan (x y : num) : (x >? y)%num = true -> x <> NaN.
Proof.
  intros H ->. now destruct y.
Qed.

(** The volumes the phase estimator records are numbers. *)
Lemma offset_peaks_volume this fuel data bpm peaks :
  offset_peaks this fuel data bpm = Ret peaks ->
  Forall (fun p => volume p <> NaN) peaks.
Proof.
  intro Hrun. unfold offset_peaks in Hrun.
  eapply scan_windows_all in Hrun; [exact Hrun | discriminate |].
  intros j max _ Hv. eapply gt_not_nan, Hv.
Qed.

Lemma quiet_or_audible (p : Peak) :
  volume p <> NaN -> (volume p <? Fin (2 # 100))%num = false -> audible p.
Proof.
  unfold audible, ge. destruct (volume p) as [a | | |]; simpl;
    intros Hn H; try reflexivity; try discriminate; [| congruence].
  qprop. exact H.
Qed.

Lemma audible_not_quiet (p : Peak) : audible p -> ~ quiet p.
Proof.
  unfold audible, quiet, ge. destruct (volume p) as [a | | |]; simpl;
    intros H1 H2; try discriminate.
  qprop. lra.
Qed.

Lemma first_bar_scan_cons fuel p ps i :
  first_bar_scan fuel (p :: ps) (S i)
  = let* k := first_bar_scan fuel ps i in Ret (S k).
Proof.
  revert i. induction fuel as [| fuel IH]; intro i; [reflexivity |].
  simpl. destruct (nth_error ps i) as [q |]; [| reflexivity].
  destruct (volume q <? Fin (2 # 100))%num; [apply IH | reflexivity].
Qed.

(** With enough fuel the scan either stops at the first audible peak or
    runs through a list of quiet peaks and reads past its end. *)
Lemma first_bar_scan_cases peaks :
  Forall (fun p => volume p <> NaN) peaks ->
  forall fuel, (length peaks < fuel)%nat ->
  (exists i p, first_bar_scan fuel peaks 0 = Ret i
               /\ nth_error peaks i = Some p /\ audible p
               /\ Forall quiet (firstn i peaks))
  \/ (first_bar_scan fuel peaks 0 = Throw TypeError /\ Forall quiet peaks).
Proof.
  induction 1 as [| p ps Hp Hall IH]; intros fuel Hfuel.
  - right. destruct fuel; [simpl in Hfuel; lia |]. split; [reflexivity |].
    constructor.
  - destruct fuel as [| fuel]; [lia |]. simpl in Hfuel.
    cbn [first_bar_scan nth_error].
    destruct (volume p <? Fin (2 # 100))%num eqn:Hq.
    + rewrite first_bar_scan_cons.
      destruct (IH fuel ltac:(lia)) as [(i & q & Hr & Hn & Ha & Hf) | [Hr Hf]].
      * left. exists (S i), q. rewrite Hr. repeat split; auto.
        simpl. now constructor.
      * right. rewrite Hr. split; [reflexivity | now constructor].
    + left. exists O, p. split; [reflexivity |]. split; [reflexivity |].
      split; [now apply quiet_or_audible | constructor].
Qed.

(** The scan on any list of peaks whose volumes are numbers. *)
Lemma first_bar_scan_iff peaks fuel :
  Forall (fun p => volume p <> NaN) peaks ->
  (length peaks < fuel)%nat ->
  ((exists i, first_bar_scan fuel peaks 0 = Ret i /\ (i < length peaks)%nat)
   <-> Exists audible peaks)
  /\ (Forall quiet peaks -> first_bar_scan fuel peaks 0 = Throw TypeError)
  /\ (Exists audible peaks \/ Forall quiet peaks).
Proof.
  intros Hnum Hfuel.
  destruct (first_bar_scan_cases peaks Hnum fuel Hfuel)
    as [(i & p & Hr & Hn & Ha & Hf) | [Hr Hq]].
  - assert (Hex : Exists audible peaks).
    { apply Exists_exists. exists p. split; [| exact Ha].
      eapply nth_error_In, Hn. }
    split; [| split].
    + split; [intros _; exact Hex |]. intros _. exists i. split; [exact Hr |].
      apply nth_error_Some. congruence.
    + intro Hq. exfalso. rewrite Forall_forall in Hq.
      apply (audible_not_quiet p Ha), Hq. eapply nth_error_In, Hn.
    + now left.
  - split; [| split].
    + rewrite Hr. split.
      * intros (i & Hi & _). discriminate.
      * intro Hex. exfalso. apply Exists_exists in Hex.
        destruct Hex as (p & Hin & Ha). rewrite Forall_forall in Hq.
        exact (audible_not_quiet p Ha (Hq p Hin)).
    + intros _. exact Hr.
    + now right.
Qed.

(** C10.  With a positive sample rate and enough fuel the phase estimator
    has its window peaks, and on them the first-bar scan stops inside the
    list exactly when some peak has a volume of at least 0.02; when every
    volume is below 0.02 it reads past the end of the list, which throws. *)
Theorem first_bar_scan_bounds this data bpm fuel :
  0 < _sampleRate this ->
  (scan_fuel this (length data) <= fuel)%nat ->
  exists peaks,
    offset_peaks this fuel data bpm = Ret peaks
    /\ forall fuel', (length peaks < fuel')%nat ->
         ((exists i, first_bar_scan fuel' peaks 0 = Ret i
                     /\ (i < length peaks)%nat)
          <-> Exists audible peaks)
         /\ (Forall quiet peaks ->
             first_bar_scan fuel' peaks 0 = Throw TypeError)
         /\ (Exists audible peaks \/ Forall quiet peaks).
Proof.
  intros Hrate Hfuel.
  assert (Hrun : exists peaks, offset_peaks this fuel data bpm = Ret peaks).
  { unfold offset_peaks. now apply scan_windows_total. }
  destruct Hrun as [peaks Hrun]. exists peaks. split; [exact Hrun |].
  intros fuel' Hfuel'. apply first_bar_scan_iff; [| exact Hfuel'].
  eapply offset_peaks_volume, Hrun.
Qed.

Lemma first_bar_scan_bounds_witness :
  exists peaks,
    offset_peaks rate4 30 clicks (Fin 120) = Ret peaks
    /\ forall fuel', (length peaks < fuel')%nat ->
         ((exists i, first_bar_scan fuel' peaks 0 = Ret i
                     /\ (i < length peaks)%nat)
          <-> Exists audible peaks)
         /\ (Forall quiet peaks ->
             first_bar_scan fuel' peaks 0 = Throw TypeError)
         /\ (Exists audible peaks \/ Forall quiet peaks).
Proof.
  apply (first_bar_scan_bounds rate4 clicks (Fin 120) 30).
  - reflexivity.
  - vm_compute. lia.
Defined.

(** ** Octave folding and rounding (C1) *)



Lemma pow10_pos (p : Z) : 0 < 10 ^ p.
Proof. apply Qpower_0_lt. reflexivity. Qed.

Lemma floatRound_fin (a : Q) (p : Z) :
  _floatRound (Fin a) p
  = Fin (inject_Z (Qfloor (a * 10 ^ p + (1 # 2))) / 10 ^ p).
Proof.
  unfold _floatRound, pow10. cbn [mul round]. apply div_fin.
  pose proof (pow10_pos p) as H. intro E. rewrite E in H. discriminate.
Qed.










(** Voting never changes the tempo of an existing group. *)
Lemma some_vote_tempos group peak groups groups' :
  some_vote group peak groups = Some groups' ->
  map tempo groups' = map tempo groups.
Proof.
  revert groups'. induction groups as [| g gs IH]; intros groups' H;
    simpl in H; [discriminate |].
  destruct (tempo g =? tempo group)%num.
  - injection H as <-. reflexivity.
  - destruct (some_vote group peak gs) as [gs' |]; simpl in H;
      [| discriminate].
    injection H as <-. simpl. f_equal. now apply IH.
Qed.


Section ForEachFacts.
Context {A St : Type} (f : A -> nat -> St -> res St).

Lemma forEach_ret (Inv : St -> Prop) :
  forall l index s r,
    (forall x i s s', In x l -> Inv s -> f x i s = Ret s' -> Inv s') ->
    Inv s -> forEach f l index s = Ret r -> Inv r.
Proof.
  induction l as [| x l IH]; intros index s r Hstep Hinv Hrun;
    simpl in Hrun.
  - now injection Hrun as <-.
  - destruct (f x index s) as [s' | e |] eqn:Hf; cbn [bind] in Hrun;
      try discriminate.
    eapply IH; [| | exact Hrun].
    + intros y i s1 s2 Hin. apply Hstep. now right.
    + eapply Hstep; [now left | exact Hinv | exact Hf].
Qed.



End ForEachFacts.


(** ** Termination of the octave folding (C9) *)





Section FoldTermination.
Variable this : BeatDetect.



Hypothesis max_pos : 0 < snd (_bpmRange this).


(** The halving loop never leaves +Infinity. *)
Lemma fold_down_infinite fuel : fold_down this fuel PInf = OutOfFuel.
Proof.
  unfold fold_down. apply (while_loop_diverges _ _ (fun t => t = PInf));
    [| reflexivity].
  intros x ->. split; reflexivity.
Qed.

Lemma fold_tempo_infinite fuel : fold_tempo this fuel PInf = OutOfFuel.
Proof.
  unfold fold_tempo. destruct fuel as [| fuel]; [reflexivity |].
  unfold fold_up. cbn [while_loop le bind]. apply fold_down_infinite.
Qed.

End FoldTermination.



Lemma raw_tempo_infinite this p q :
  0 < _sampleRate this ->
  is_fin (position p) -> same (position p) (position q) ->
  raw_tempo this p q = PInf.
Proof.
  intros Hrate Hfin Hsame. unfold raw_tempo.
  destruct (position p) as [a | | |], (position q) as [b | | |];
    try contradiction.
  cbn [mul sub neg add same] in *. apply div_zero_pos; lra.
Qed.




Section ClustererTermination.
Variable this : BeatDetect.
Hypothesis rate_pos : 0 < _sampleRate this.
Hypothesis max_pos : 0 < snd (_bpmRange this).


End ClustererTermination.

Lemma lookahead_cond (all : list Peak) (index i : nat) :
  (index + i <? length all)%nat && (i <? 10)%nat = true
  <-> (index + i < length all)%nat /\ (i < 10)%nat.
Proof.
  now rewrite andb_true_iff, !Nat.ltb_lt.
Qed.













(** ** The clamp of the first bar (C3) *)







Lemma inject_Z_succ (n : nat) :
  inject_Z (Z.of_nat (S n)) == inject_Z (Z.of_nat n) + 1.
Proof.
  rewrite Nat2Z.inj_succ. unfold Z.succ. now rewrite inject_Z_plus.
Qed.

Section PhaseTermination.
Variables (this : BeatDetect) (b : Q).
Hypothesis rate_pos : 0 < _sampleRate this.
Hypothesis signature_pos : 0 < _timeSignature this.
Hypothesis bpm_pos : 0 < b.










End PhaseTermination.


Section LowestTimeOffset.
Variables (this : BeatDetect) (b : Q).
Hypothesis rate_pos : 0 < _sampleRate this.
Hypothesis bpm_pos : 0 < b.


End LowestTimeOffset.

Section MeanOffset.
Variables (this : BeatDetect) (b : Q).
Hypothesis rate_pos : 0 < _sampleRate this.
Hypothesis bpm_pos : 0 < b.


End MeanOffset.








(** ** The pipeline on a silent buffer (C2) *)

Lemma for_loop_never_throws {I A : Type} (cond : I -> bool) (next : I -> I)
  (body : I -> A -> res A) :
  (forall i a e, body i a <> Throw e) ->
  forall fuel i a e, for_loop fuel cond next body i a <> Throw e.
Proof.
  intros Hbody. induction fuel as [| fuel IH]; intros i a e; simpl;
    [discriminate |].
  destruct (cond i); [| discriminate].
  destruct (body i a) as [a' | e' |] eqn:Hb; cbn [bind];
    [apply IH | | discriminate].
  exfalso. exact (Hbody _ _ _ Hb).
Qed.

Lemma scan_windows_never_throws this fuel len sample e :
  scan_windows this fuel len sample <> Throw e.
Proof.
  unfold scan_windows. apply for_loop_never_throws.
  intros i a e' H.
  destruct (scan_window this fuel i sample) as [p | e1 |] eqn:Hw;
    cbn [bind] in H; try discriminate.
  revert Hw. unfold scan_window. apply for_loop_never_throws.
  discriminate.
Qed.

Lemma sort_repeat {A : Type} (cmp : A -> A -> num) (x : A) (n : nat) :
  (cmp x x >? Fin 0)%num = false -> sort cmp (repeat x n) = repeat x n.
Proof.
  intro Hx. induction n as [| n IH]; [reflexivity |].
  cbn [repeat sort fold_right]. fold (sort cmp (repeat x n)). rewrite IH.
  destruct n; cbn [repeat sort_insert]; [reflexivity | now rewrite Hx].
Qed.

Lemma firstn_repeat_le {A : Type} (x : A) (k n : nat) :
  (k <= n)%nat -> firstn k (repeat x n) = repeat x k.
Proof.
  revert n. induction k as [| k IH]; intros n Hk; [reflexivity |].
  destruct n as [| n]; [lia |]. simpl. f_equal. apply IH. lia.
Qed.

Lemma select_peaks_silent (n : nat) :
  select_peaks (repeat peak0 n) = repeat peak0 (n / 2).
Proof.
  unfold select_peaks, splice0.
  rewrite !(sort_repeat _ peak0 n) by reflexivity.
  rewrite repeat_length, to_count_half.
  rewrite firstn_repeat_le by (apply Nat.Div0.div_le_upper_bound; lia).
  now apply sort_repeat.
Qed.

(** Two or more peaks at position 0: the first interval has the raw tempo
    +Infinity and the clusterer hangs. *)
Lemma getIntervals_silent_many this (m fuel : nat) :
  0 < _sampleRate this -> (2 <= m)%nat ->
  _getIntervals this fuel (repeat peak0 m) = OutOfFuel.
Proof.
  intros Hrate Hm. destruct m as [| [| m]]; try lia.
  unfold _getIntervals. cbn [repeat forEach].
  destruct fuel as [| fuel]; [reflexivity |].
  cbn [for_loop Nat.add length Nat.ltb Nat.leb andb].
  unfold interval_vote at 1. cbn [Nat.add nth_error].
  rewrite (raw_tempo_infinite this peak0 peak0 Hrate I); [| reflexivity].
  now rewrite fold_tempo_infinite.
Qed.

(** At most one peak: no interval, no group. *)
Lemma getIntervals_silent_few this (m fuel : nat) :
  (m <= 1)%nat ->
  _getIntervals this fuel (repeat peak0 m) = Ret []
  \/ _getIntervals this fuel (repeat peak0 m) = OutOfFuel.
Proof.
  intro Hm. destruct m as [| [| m]]; try lia; [now left |].
  destruct fuel as [| fuel]; [now right | now left].
Qed.

Lemma getIntervals_silent_few_total this (m fuel : nat) :
  (m <= 1)%nat -> (1 <= fuel)%nat ->
  _getIntervals this fuel (repeat peak0 m) = Ret [].
Proof.
  intros Hm Hfuel. destruct m as [| [| m]]; try lia; [reflexivity |].
  destruct fuel as [| fuel]; [lia | reflexivity].
Qed.

Section SilentPipeline.
Variables (this : BeatDetect) (dataL dataR : Float32Array).
Hypothesis rate_pos : 0 < _sampleRate this.
Hypothesis silentL : silent dataL.
Hypothesis silentR : silent dataR.

Let kept : nat := (window_count this (length dataL) / 2)%nat.

(** The peak extractor either runs out of fuel or selects [kept] copies of
    the starting peak. *)
Lemma getPeaks_silent fuel :
  _getPeaks this fuel (dataL, dataR) = Ret (repeat peak0 kept)
  \/ _getPeaks this fuel (dataL, dataR) = OutOfFuel.
Proof.
  unfold _getPeaks.
  destruct (window_peaks this fuel (dataL, dataR)) as [peaks | e |] eqn:Hw;
    cbn [bind].
  - left. apply window_peaks_silent in Hw; auto. subst peaks.
    now rewrite select_peaks_silent.
  - exfalso. exact (scan_windows_never_throws _ _ _ _ _ Hw).
  - now right.
Qed.

Lemma getPeaks_silent_total fuel :
  (scan_fuel this (length dataL) <= fuel)%nat ->
  _getPeaks this fuel (dataL, dataR) = Ret (repeat peak0 kept).
Proof.
  intro Hfuel. destruct (getPeaks_silent fuel) as [H | H]; [exact H |].
  destruct (window_peaks_total this (dataL, dataR) fuel rate_pos Hfuel)
    as [peaks Hp].
  unfold _getPeaks in H. rewrite Hp in H. discriminate.
Qed.

Lemma silent_pipeline_hangs fuel :
  (2 <= kept)%nat ->
  _processRenderedBuffer this fuel (Some (dataL, dataR)) = OutOfFuel.
Proof.
  intro Hkept. unfold _processRenderedBuffer.
  destruct (getPeaks_silent fuel) as [-> | ->]; [| reflexivity].
  cbn [bind]. now rewrite getIntervals_silent_many.
Qed.

Lemma silent_pipeline_never_resolves fuel b :
  _processRenderedBuffer this fuel (Some (dataL, dataR)) <> Ret b.
Proof.
  destruct (Nat.le_gt_cases 2 kept) as [Hmany | Hfew].
  - now rewrite silent_pipeline_hangs.
  - unfold _processRenderedBuffer.
    destruct (getPeaks_silent fuel) as [-> | ->]; [| discriminate].
    cbn [bind].
    destruct (getIntervals_silent_few this kept fuel) as [-> | ->];
      [lia | discriminate | discriminate].
Qed.

Lemma silent_pipeline_throws fuel :
  (kept < 2)%nat -> (scan_fuel this (length dataL) <= fuel)%nat ->
  _processRenderedBuffer this fuel (Some (dataL, dataR)) = Throw TypeError.
Proof.
  intros Hfew Hfuel. unfold _processRenderedBuffer.
  rewrite getPeaks_silent_total by exact Hfuel. cbn [bind].
  rewrite getIntervals_silent_few_total; [reflexivity | lia |].
  unfold scan_fuel in Hfuel. lia.
Qed.

End SilentPipeline.

(** C2, on the program.  On a fully silent buffer (positive sample rate)
    the pipeline never resolves, so no NaN or Infinity bpm or offset reaches
    the caller, and it has no detection failure of its own kind.  When at
    least two peaks are selected (four windows or more) the caller is not
    answered at all: every window peak stands at position 0 (see C7), the
    raw tempo of two of them is +Infinity and the halving loop never ends.
    When fewer than two peaks are selected the caller sees the [TypeError]
    raised on reading the tempo of a top group that does not exist. *)
Theorem silent_buffer_outcome this dataL dataR :
  0 < _sampleRate this -> silent dataL -> silent dataR ->
  (forall fuel b,
      _processRenderedBuffer this fuel (Some (dataL, dataR)) <> Ret b)
  /\ ((2 <= window_count this (length dataL) / 2)%nat ->
      forall fuel,
        _processRenderedBuffer this fuel (Some (dataL, dataR)) = OutOfFuel)
  /\ ((window_count this (length dataL) / 2 < 2)%nat ->
      forall fuel, (scan_fuel this (length dataL) <= fuel)%nat ->
        _processRenderedBuffer this fuel (Some (dataL, dataR))
        = Throw TypeError).
Proof.
  intros Hrate HL HR. split; [| split].
  - intros fuel b. now apply silent_pipeline_never_resolves.
  - intros Hmany fuel. now apply silent_pipeline_hangs.
  - intros Hfew fuel Hfuel. now apply silent_pipeline_throws.
Qed.

Lemma silent_repeat (n : nat) : silent (repeat (Fin 0) n).
Proof.
  apply Forall_forall. intros x Hx. apply repeat_spec in Hx. now subst.
Qed.

Lemma silent_buffer_outcome_witness :
  (forall fuel,
      _processRenderedBuffer rate4 fuel
        (Some (repeat (Fin 0) 8, repeat (Fin 0) 8)) = OutOfFuel)
  /\ _processRenderedBuffer rate4 10
       (Some (repeat (Fin 0) 4, repeat (Fin 0) 4)) = Throw TypeError.
Proof.
  split.
  - destruct (silent_buffer_outcome rate4 (repeat (Fin 0) 8)
                (repeat (Fin 0) 8)) as (_ & Hhang & _).
    + reflexivity.
    + apply silent_repeat.
    + apply silent_repeat.
    + apply Hhang. vm_compute. lia.
  - destruct (silent_buffer_outcome rate4 (repeat (Fin 0) 4)
                (repeat (Fin 0) 4)) as (_ & _ & Hthrow).
    + reflexivity.
    + apply silent_repeat.
    + apply silent_repeat.
    + apply Hthrow; vm_compute; lia.
Defined.

(** C2 at the failing input: on two seconds of silence at the default
    settings two peaks are selected, both at position 0, and the pipeline
    neither fails nor resolves: no amount of fuel brings the halving loop
    to an end. *)
Lemma silent_buffer_hangs :
  silent silence
  /\ (forall fuel,
        _processRenderedBuffer defaults fuel (Some (silence, silence))
        = OutOfFuel)
  /\ ~ (exists fuel e,
          _processRenderedBuffer defaults fuel (Some (silence, silence))
          = Throw e).
Proof.
  assert (Hs : silent silence) by apply silent_repeat.
  assert (Hhang : forall fuel,
             _processRenderedBuffer defaults fuel (Some (silence, silence))
             = OutOfFuel).
  { intro fuel. apply silent_pipeline_hangs; try assumption; [reflexivity |].
    unfold silence. rewrite repeat_length. vm_compute. lia. }
  split; [exact Hs |]. split; [exact Hhang |].
  intros (fuel & e & H). rewrite Hhang in H. discriminate.
Qed.

(** ** Tap tempo (C8) *)

Section TapFacts.
Import Tap.
Variable precision : option Z.










End TapFacts.




(** * Further properties of the program *)

(** ** Rounding to a precision *)

Lemma floatRound_inf (p : Z) :
  _floatRound PInf p = PInf /\ _floatRound NInf p = NInf.
Proof.
  pose proof (pow10_pos p) as Hm. unfold _floatRound, pow10. cbn [mul].
  apply Qgt_alt in Hm. rewrite Hm. cbn [round div signed].
  assert (Hlt : Qltb (10 ^ p) 0 = false).
  { apply Qltb_ge. apply Qlt_le_weak. now apply Qgt_alt. }
  now rewrite Hlt.
Qed.

(** ** The phase of a position *)



(** ** The mean offset *)



(** ** The peak of a window *)

Lemma get_same (data : Float32Array) (q q' : Q) :
  q == q' -> get data (Fin q) = get data (Fin q').
Proof.
  intro H. unfold get. rewrite (Qfloor_comp _ _ H).
  replace (Qeqb q (inject_Z (Qfloor q')))
    with (Qeqb q' (inject_Z (Qfloor q'))); [reflexivity |].
  apply eq_true_iff_eq. now rewrite !Qeqb_eq, H.
Qed.

Lemma gt_irrefl (x : num) : (x >? x)%num = false.
Proof.
  destruct x; try reflexivity. unfold gt. cbn. qprop. lra.
Qed.

Lemma gt_upper (a b c : num) :
  (c >? a)%num = true -> (b >? a)%num = false -> (b >? c)%num = false.
Proof.
  unfold gt. destruct a, b, c; cbn; try discriminate; try reflexivity.
  intros H1 H2. qprop. lra.
Qed.

Lemma gt_above (a c z : num) :
  (c >? a)%num = true -> (a >? z)%num = true -> (c >? z)%num = true.
Proof.
  unfold gt. destruct a, c, z; cbn; try discriminate; try reflexivity.
  intros H1 H2. qprop. lra.
Qed.

Lemma ge_below (a b c : num) :
  (c >? a)%num = true -> (b >? a)%num = false -> (b >=? c)%num = false.
Proof.
  unfold gt, ge. destruct a, b, c; cbn; try discriminate; try reflexivity.
  intros H1 H2. qprop. lra.
Qed.

Section WindowMaximum.
Variables (this : BeatDetect) (data : Float32Array * Float32Array) (n : nat).
Hypothesis size_pos : (0 < n)%nat.
Hypothesis size_whole : _sampleRate this / 2 == inject_Z (Z.of_nat n).

Let sample (j : num) : Peak :=
  {| position := j;
     volume := max (abs (get (fst data) j)) (abs (get (snd data) j)) |}.

Lemma sample_at (q : Q) (k : nat) :
  q == inject_Z (Z.of_nat k) -> volume (sample (Fin q)) = sample_volume data k.
Proof.
  intro H. unfold sample, sample_volume, of_nat. cbn [volume].
  now rewrite !(get_same _ _ _ H).
Qed.

Lemma scan_window_maximum fuel i p :
  scan_window this fuel i sample = Ret p -> window_maximum data n i p.
Proof.
  intro Hrun. unfold scan_window in Hrun. rewrite partSize_fin in Hrun.
  set (ps := _sampleRate this / 2) in *.
  change ((of_nat i + Fin 1) * Fin ps)%num
    with (Fin ((inject_Z (Z.of_nat i) + 1) * ps)) in Hrun.
  change (of_nat i * Fin ps)%num
    with (Fin (inject_Z (Z.of_nat i) * ps)) in Hrun.
  apply (for_loop_ret _ _ _
           (fun j max =>
              exists q m,
                j = Fin q /\ q == inject_Z (Z.of_nat (i * n + m))
                /\ (m <= n)%nat
                /\ (forall k, (i * n <= k < i * n + m)%nat ->
                              (sample_volume data k >? volume max)%num = false)
                /\ ((max = peak0
                     /\ forall k, (i * n <= k < i * n + m)%nat ->
                                  (sample_volume data k >? Fin 0)%num = false)
                    \/ exists k, (i * n <= k < i * n + m)%nat
                                 /\ same (position max) (of_nat k)
                                 /\ volume max = sample_volume data k
                                 /\ (volume max >? Fin 0)%num = true
                                 /\ forall k', (i * n <= k' < k)%nat ->
                                       (sample_volume data k' >=? volume max)%num
                                       = false)))
    in Hrun.
  - destruct Hrun as (j & (q & m & -> & Hq & Hm & Hdom & Hatt) & Hc).
    cbn [lt] in Hc. qprop. rewrite Hq, size_whole in Hc.
    assert (Hn : inject_Z (Z.of_nat i) + 1 == inject_Z (Z.of_nat (i + 1))).
    { rewrite Nat2Z.inj_add, inject_Z_plus. reflexivity. }
    rewrite Hn, <- inject_Z_mult, <- Nat2Z.inj_mul in Hc.
    rewrite <- Zle_Qle in Hc.
    assert (m = n) by lia. subst m. unfold window_maximum.
    replace ((i + 1) * n)%nat with (i * n + n)%nat by lia.
    split; assumption.
  - intros j max a' (q & m & -> & Hq & Hm & Hdom & Hatt) Hc Hbody.
    cbn [lt] in Hc. qprop. rewrite Hq, size_whole in Hc.
    assert (Hn : inject_Z (Z.of_nat i) + 1 == inject_Z (Z.of_nat (i + 1))).
    { rewrite Nat2Z.inj_add, inject_Z_plus. reflexivity. }
    rewrite Hn, <- inject_Z_mult, <- Nat2Z.inj_mul in Hc.
    rewrite <- Zlt_Qlt in Hc.
    assert (Ha : a' = if (volume (sample (Fin q)) >? volume max)%num
                      then sample (Fin q) else max)
      by (injection Hbody as <-; reflexivity).
    clear Hbody. subst a'.
    exists (q + 1), (S m). split; [reflexivity |].
    split.
    { rewrite Hq. replace (i * n + S m)%nat with (S (i * n + m)) by lia.
      now rewrite inject_Z_succ. }
    split; [lia |].
    pose proof (sample_at q (i * n + m) Hq) as Hvol.
    destruct (volume (sample (Fin q)) >? volume max)%num eqn:Hgt.
    + split.
      * intros k Hk. rewrite Hvol.
        destruct (Nat.eq_dec k (i * n + m)) as [-> | Hne];
          [apply gt_irrefl |].
        rewrite Hvol in Hgt. apply (gt_upper _ _ _ Hgt). apply Hdom. lia.
      * right. exists (i * n + m)%nat. split; [lia |].
        split; [exact Hq |]. split; [exact Hvol |]. split.
        -- destruct Hatt as [[-> _] | (k & _ & _ & _ & Hpos & _)];
             [exact Hgt | exact (gt_above _ _ _ Hgt Hpos)].
        -- intros k' Hk'. rewrite Hvol in Hgt |- *.
           apply (ge_below _ _ _ Hgt). apply Hdom. lia.
    + split.
      * intros k Hk.
        destruct (Nat.eq_dec k (i * n + m)) as [-> | Hne];
          [now rewrite <- Hvol | apply Hdom; lia].
      * destruct Hatt as [[-> Hzero] | (k & Hk & Hpos & Hv & Hrest)].
        -- left. split; [reflexivity |]. intros k Hk.
           destruct (Nat.eq_dec k (i * n + m)) as [-> | Hne];
             [rewrite <- Hvol; exact Hgt | apply Hzero; lia].
        -- right. exists k. split; [lia |]. split; [exact Hpos |].
           split; [exact Hv | exact Hrest].
  - exists (inject_Z (Z.of_nat i) * ps), O. split; [reflexivity |].
    split.
    { rewrite Nat.add_0_r, Nat2Z.inj_mul, inject_Z_mult, size_whole.
      reflexivity. }
    split; [lia |]. split; [intros k Hk; lia |]. left.
    split; [reflexivity | intros k Hk; lia].
Qed.

Lemma scan_windows_maximum fuel len peaks :
  scan_windows this fuel len sample = Ret peaks ->
  forall i p, nth_error peaks i = Some p -> window_maximum data n i p.
Proof.
  intro Hrun. unfold scan_windows in Hrun.
  apply (for_loop_ret _ _ _
           (fun i acc =>
              length acc = i
              /\ forall i' p, nth_error acc i' = Some p ->
                              window_maximum data n i' p)) in Hrun.
  - now destruct Hrun as (_ & (_ & H) & _).
  - intros i acc a' [Hlen Hall] _ Hbody.
    destruct (scan_window this fuel i sample) as [max | e |] eqn:Hw;
      cbn [bind] in Hbody; try discriminate.
    injection Hbody as <-. split; [rewrite length_app; simpl; lia |].
    intros i' p Hp.
    destruct (Nat.lt_ge_cases i' (length acc)) as [Hlt | Hge].
    + rewrite nth_error_app1 in Hp by exact Hlt. now apply Hall.
    + rewrite nth_error_app2 in Hp by exact Hge.
      destruct (i' - length acc)%nat as [| d] eqn:Hd;
        [| destruct d; discriminate].
      injection Hp as <-. replace i' with i by lia.
      now apply scan_window_maximum with fuel.
  - split; [reflexivity |]. intros i' p Hp. destruct i'; discriminate.
Qed.

End WindowMaximum.

(** X6.  When the window size [sampleRate / 2] is a whole number [n] of
    samples, the peak [_getPeaks] records for the window [i] is the maximum
    of that window: no sample of [i * n .. (i + 1) * n - 1] has a larger
    magnitude [max(|L[k]|, |R[k]|)].  When no sample of the window is above
    zero the peak is the starting peak [{position: 0, volume: 0}];
    otherwise it stands at the first sample of the window that reaches the
    peak's magnitude, which is above zero. *)
Theorem window_peak_is_maximum this data fuel peaks (n : nat) :
  (0 < n)%nat -> _sampleRate this / 2 == inject_Z (Z.of_nat n) ->
  window_peaks this fuel data = Ret peaks ->
  forall i p, nth_error peaks i = Some p -> window_maximum data n i p.
Proof.
  intros Hn Hsize Hrun i p Hp. unfold window_peaks in Hrun.
  exact (scan_windows_maximum this data n Hn Hsize fuel _ peaks Hrun i p Hp).
Qed.

Lemma window_peak_is_maximum_witness :
  exists peaks p,
    window_peaks rate4 30 (clicks, clicks) = Ret peaks
    /\ nth_error peaks 1 = Some p
    /\ window_maximum (clicks, clicks) 2 1 p.
Proof.
  destruct (window_peaks rate4 30 (clicks, clicks)) as [peaks | e |] eqn:E;
    [| vm_compute in E; discriminate E ..].
  destruct (nth_error peaks 1) as [p |] eqn:Hp.
  - exists peaks, p. split; [reflexivity |]. split; [exact Hp |].
    apply (window_peak_is_maximum rate4 (clicks, clicks) 30 peaks 2);
      [lia | reflexivity | exact E | exact Hp].
  - vm_compute in E. injection E as <-. discriminate Hp.
Defined.

(** ** The loudest half *)

Section SortStrong.
Context {A : Type} (cmp : A -> A -> num) (ok : A -> Prop).

Let before (a b : A) : Prop := (cmp a b >? Fin 0)%num = false.

Hypothesis cmp_antisym :
  forall a b, (cmp a b >? Fin 0)%num = true -> (cmp b a >? Fin 0)%num = false.
Hypothesis cmp_trans :
  forall a b c, ok a -> ok b -> ok c -> before a b -> before b c -> before a c.

Lemma sort_insert_strong x l :
  ok x -> Forall ok l ->
  StronglySorted before l -> StronglySorted before (sort_insert cmp x l).
Proof.
  intros Hx Hok Hs. induction Hs as [| y ys Hs IH Hall]; cbn [sort_insert].
  - repeat constructor.
  - inversion Hok as [| ? ? Hy Hys]; subst.
    destruct (cmp x y >? Fin 0)%num eqn:Hc.
    + constructor; [now apply IH |].
      eapply Permutation_Forall; [apply sort_insert_perm |].
      constructor; [now apply cmp_antisym | exact Hall].
    + constructor; [now constructor |].
      constructor; [exact Hc |].
      rewrite Forall_forall in Hall, Hys |- *. intros z Hz.
      apply (cmp_trans x y z); auto.
Qed.

Lemma sort_strong l : Forall ok l -> StronglySorted before (sort cmp l).
Proof.
  induction 1 as [| x l Hx Hl IH]; cbn [sort fold_right]; [constructor |].
  fold (sort cmp l). apply sort_insert_strong; auto.
  eapply Permutation_Forall; [apply sort_perm | exact Hl].
Qed.

End SortStrong.

Lemma StronglySorted_app_pairs {A : Type} (R : A -> A -> Prop) (l1 l2 : list A) :
  StronglySorted R (l1 ++ l2) ->
  forall a b, In a l1 -> In b l2 -> R a b.
Proof.
  induction l1 as [| x l1 IH]; intros Hs a b Ha Hb; [contradiction |].
  cbn in Hs. inversion Hs as [| ? ? Hs' Hall]; subst.
  destruct Ha as [<- | Ha].
  - rewrite Forall_forall in Hall. apply Hall, in_or_app. now right.
  - now apply IH.
Qed.

Lemma louder_trans (x y z : num) :
  x <> NaN -> y <> NaN -> z <> NaN ->
  (y - x >? Fin 0)%num = false -> (z - y >? Fin 0)%num = false ->
  (z - x >? Fin 0)%num = false.
Proof.
  unfold gt. destruct x, y, z; cbn; try congruence.
  intros _ _ _ H1 H2. qprop. lra.
Qed.

Lemma gt_sub (x y : num) :
  (y - x >? Fin 0)%num = false -> (y >? x)%num = false.
Proof.
  unfold gt. destruct x, y; cbn; try congruence.
  intro H. qprop. lra.
Qed.

Lemma window_peaks_volume this fuel data peaks :
  window_peaks this fuel data = Ret peaks ->
  Forall (fun p => volume p <> NaN) peaks.
Proof.
  intro Hrun. unfold window_peaks in Hrun.
  eapply scan_windows_all in Hrun; [exact Hrun | discriminate |].
  intros j max _ Hv. eapply gt_not_nan, Hv.
Qed.

Lemma select_peaks_kept (peaks : list Peak) :
  Permutation (select_peaks peaks)
    (firstn (length peaks / 2)
       (sort (fun a b => (volume b - volume a)%num) peaks)).
Proof.
  unfold select_peaks, splice0. rewrite sort_length, to_count_half.
  symmetry. apply sort_perm.
Qed.

(** X7.  Of the window peaks, [_getPeaks] keeps and drops complementary
    parts, and no dropped peak is louder than a kept one. *)
Theorem kept_peaks_are_loudest this fuel data peaks :
  window_peaks this fuel data = Ret peaks ->
  Permutation peaks (select_peaks peaks ++ dropped_peaks peaks)
  /\ forall p q,
       In p (select_peaks peaks) -> In q (dropped_peaks peaks) ->
       (volume q >? volume p)%num = false.
Proof.
  intro Hrun. apply window_peaks_volume in Hrun.
  set (loud := sort (fun a b => (volume b - volume a)%num) peaks).
  assert (Hsplit : loud = firstn (length peaks / 2) loud ++ dropped_peaks peaks)
    by (symmetry; apply firstn_skipn).
  split.
  - rewrite select_peaks_kept. fold loud. rewrite <- Hsplit. apply sort_perm.
  - intros p q Hp Hq. apply gt_sub.
    assert (Hs : StronglySorted louder_first loud).
    { apply (sort_strong _ (fun p => volume p <> NaN)); auto.
      - intros a b. apply sub_antisym.
      - intros a b c Ha Hb Hc. now apply louder_trans. }
    rewrite Hsplit in Hs.
    apply (StronglySorted_app_pairs _ _ _ Hs p q); [| exact Hq].
    eapply Permutation_in; [apply select_peaks_kept | exact Hp].
Qed.

Lemma kept_peaks_are_loudest_witness :
  exists peaks,
    window_peaks rate4 30 (clicks, clicks) = Ret peaks
    /\ forall p q,
         In p (select_peaks peaks) -> In q (dropped_peaks peaks) ->
         (volume q >? volume p)%num = false.
Proof.
  destruct (window_peaks rate4 30 (clicks, clicks)) as [peaks | e |] eqn:E;
    [| vm_compute in E; discriminate E ..].
  exists peaks. split; [reflexivity |].
  exact (proj2 (kept_peaks_are_loudest rate4 30 (clicks, clicks) peaks E)).
Defined.

(** ** The groups of the clusterer *)

(** A property of the empty list of groups that every vote preserves holds
    of what the clusterer returns. *)
Lemma getIntervals_inv this (Inv : list IntervalGroup -> Prop) fuel all groups :
  Inv [] ->
  (forall acc peak t,
      In peak all -> Inv acc -> Inv (vote (new_group this peak t) peak acc)) ->
  _getIntervals this fuel all = Ret groups ->
  Inv groups.
Proof.
  intros H0 Hvote Hrun. unfold _getIntervals in Hrun.
  eapply (forEach_ret _ Inv) in Hrun; [exact Hrun | | exact H0].
  intros peak index s s' Hin Hs Hloop.
  eapply (for_loop_ret _ _ _ (fun _ acc => Inv acc)) in Hloop;
    [now destruct Hloop as (_ & H & _) | | exact Hs].
  intros i a a' Ha _ Hbody. unfold interval_vote in Hbody.
  destruct (nth_error all (index + i)) as [next |]; [| discriminate].
  destruct (fold_tempo this fuel (raw_tempo this peak next)) as [t | e |];
    cbn [bind] in Hbody; try discriminate.
  injection Hbody as <-. now apply Hvote.
Qed.

Lemma some_vote_none group peak groups :
  some_vote group peak groups = None ->
  Forall (fun g => (tempo g =? tempo group)%num = false) groups.
Proof.
  induction groups as [| g gs IH]; intro H; [constructor |].
  cbn [some_vote] in H. destruct (tempo g =? tempo group)%num eqn:He;
    [discriminate |].
  destruct (some_vote group peak gs); [discriminate |].
  constructor; auto.
Qed.

Lemma some_vote_forall (P : IntervalGroup -> Prop) group peak groups groups' :
  (forall g, P g -> P (voted g peak)) ->
  Forall P groups -> some_vote group peak groups = Some groups' ->
  Forall P groups'.
Proof.
  intros Hstep. revert groups'. induction groups as [| g gs IH];
    intros groups' Hall H; cbn [some_vote] in H; [discriminate |].
  inversion Hall as [| ? ? Hg Hgs]; subst.
  destruct (tempo g =? tempo group)%num.
  - injection H as <-. constructor; [now apply Hstep | exact Hgs].
  - destruct (some_vote group peak gs) as [gs' |]; [| discriminate].
    injection H as <-. constructor; [exact Hg | now apply IH].
Qed.

Lemma vote_forall (P : IntervalGroup -> Prop) group peak groups :
  (forall g, P g -> P (voted g peak)) ->
  Forall P groups -> P group -> Forall P (vote group peak groups).
Proof.
  intros Hstep Hall Hg. unfold vote.
  destruct (some_vote group peak groups) as [groups' |] eqn:Hv.
  - eapply some_vote_forall; eauto.
  - apply Forall_app. split; [exact Hall | now repeat constructor].
Qed.

Lemma ForallOrdPairs_snoc {A : Type} (R : A -> A -> Prop) (l : list A) (x : A) :
  ForallOrdPairs R l -> Forall (fun y => R y x) l ->
  ForallOrdPairs R (l ++ [x]).
Proof.
  induction 1 as [| y l Hy Hl IH]; intro Hall; cbn.
  - repeat constructor.
  - inversion Hall as [| ? ? Hyx Hrest]; subst.
    constructor; [| now apply IH].
    apply Forall_app. split; [exact Hy | now repeat constructor].
Qed.

Lemma ForallOrdPairs_map {A B : Type} (f : A -> B) (R : B -> B -> Prop)
  (l : list A) :
  ForallOrdPairs R (map f l) -> ForallOrdPairs (fun a b => R (f a) (f b)) l.
Proof.
  induction l as [| x l IH]; intro H; [constructor |].
  cbn in H. inversion H as [| ? ? Hx Hl]; subst.
  constructor; [| now apply IH].
  rewrite Forall_forall in Hx |- *. intros y Hy. apply Hx. now apply in_map.
Qed.

Lemma vote_distinct group peak groups :
  ForallOrdPairs (fun s t => (s =? t)%num = false) (map tempo groups) ->
  ForallOrdPairs (fun s t => (s =? t)%num = false)
    (map tempo (vote group peak groups)).
Proof.
  intro H. unfold vote.
  destruct (some_vote group peak groups) as [groups' |] eqn:Hv.
  - now rewrite (some_vote_tempos _ _ _ _ Hv).
  - rewrite map_app. apply ForallOrdPairs_snoc; [exact H |].
    apply some_vote_none in Hv. rewrite Forall_forall in Hv |- *.
    intros t Ht. apply in_map_iff in Ht. destruct Ht as (g & <- & Hg).
    now apply Hv.
Qed.

(** X8.  In what the clusterer returns no two groups have the same tempo
    (in the sense of [===]); each group counts one vote more than it has
    supporting peaks, is anchored at the position of a peak of the input,
    and is supported by peaks of the input only. *)
Theorem groups_are_well_formed this fuel all groups :
  _getIntervals this fuel all = Ret groups ->
  ForallOrdPairs (fun a b => (tempo a =? tempo b)%num = false) groups
  /\ Forall (fun g =>
               count g = S (length (peaks g))
               /\ (exists p, In p all /\ group_position g = position p)
               /\ Forall (fun q => In q all) (peaks g)) groups.
Proof.
  intro Hrun. split.
  - apply (ForallOrdPairs_map tempo (fun s t => (s =? t)%num = false)).
    apply (getIntervals_inv this
             (fun groups =>
                ForallOrdPairs (fun s t => (s =? t)%num = false)
                  (map tempo groups)) fuel all groups);
      [constructor | | exact Hrun].
    intros acc peak t _. apply vote_distinct.
  - apply (getIntervals_inv this
             (Forall (fun g =>
                        count g = S (length (peaks g))
                        /\ (exists p, In p all /\ group_position g = position p)
                        /\ Forall (fun q => In q all) (peaks g)))
             fuel all groups); [constructor | | exact Hrun].
    intros acc peak t Hin Hacc. apply vote_forall; [| exact Hacc |].
    + intros g (Hc & Hp & Hs). cbn. rewrite length_app, Hc. cbn.
      split; [lia |]. split; [exact Hp |].
      apply Forall_app. split; [exact Hs | now repeat constructor].
    + cbn. split; [reflexivity |]. split; [eauto | constructor].
Qed.

Lemma groups_are_well_formed_witness :
  exists groups,
    _getIntervals defaults 30 three_peaks = Ret groups
    /\ ForallOrdPairs (fun a b => (tempo a =? tempo b)%num = false) groups.
Proof.
  destruct (_getIntervals defaults 30 three_peaks) as [groups | e |] eqn:E;
    [| vm_compute in E; discriminate E ..].
  exists groups. split; [reflexivity |].
  exact (proj1 (groups_are_well_formed defaults 30 three_peaks groups E)).
Defined.

Lemma total_count_app (l1 l2 : list IntervalGroup) :
  total_count (l1 ++ l2) = (total_count l1 + total_count l2)%nat.
Proof.
  unfold total_count. now rewrite map_app, list_sum_app.
Qed.

(** A vote adds one to the total, whether it joins a group or founds one. *)
Lemma vote_total this peak t groups :
  total_count (vote (new_group this peak t) peak groups)
  = S (total_count groups).
Proof.
  unfold vote.
  destruct (some_vote (new_group this peak t) peak groups) as [groups' |]
    eqn:Hv.
  - revert groups' Hv. induction groups as [| g gs IH]; intros groups' Hv;
      cbn [some_vote] in Hv; [discriminate |].
    destruct (tempo g =? tempo (new_group this peak t))%num.
    + injection Hv as <-. reflexivity.
    + destruct (some_vote (new_group this peak t) peak gs) as [gs' |];
        [| discriminate].
      injection Hv as <-.
      change (count g + total_count gs' = S (count g + total_count gs))%nat.
      rewrite (IH gs' eq_refl). lia.
  - rewrite total_count_app. unfold total_count. cbn. lia.
Qed.

Lemma forEach_ret_indexed {A St : Type} (f : A -> nat -> St -> res St)
  (Inv : nat -> St -> Prop) :
  forall l index s r,
    (forall x k s s',
        nth_error l k = Some x -> Inv (index + k)%nat s ->
        f x (index + k)%nat s = Ret s' -> Inv (S (index + k)) s') ->
    Inv index s -> forEach f l index s = Ret r ->
    Inv (index + length l)%nat r.
Proof.
  induction l as [| x l IH]; intros index s r Hstep Hinv Hrun;
    cbn [forEach] in Hrun.
  - injection Hrun as <-. cbn. now rewrite Nat.add_0_r.
  - destruct (f x index s) as [s' | e |] eqn:Hf; cbn [bind] in Hrun;
      try discriminate.
    cbn [length]. replace (index + S (length l))%nat
      with (S index + length l)%nat by lia.
    apply (IH (S index) s' r); [| | exact Hrun].
    + intros y k s1 s2 Hk Hs1 Hf1.
      replace (S index + k)%nat with (index + S k)%nat in * by lia.
      now apply (Hstep y (S k) s1 s2).
    + specialize (Hstep x O s s' eq_refl).
      rewrite Nat.add_0_r in Hstep. now apply Hstep.
Qed.

(** X9.  Votes are conserved: the counts of the groups the clusterer
    returns add up to the number of intervals it examined, up to nine for
    each peak (fewer for the last nine peaks). *)
Theorem votes_are_conserved this fuel all groups :
  _getIntervals this fuel all = Ret groups ->
  total_count groups = interval_count (length all).
Proof.
  intro Hrun. unfold _getIntervals in Hrun.
  set (votes := fun index => Nat.min 9 (length all - 1 - index)).
  apply (forEach_ret_indexed _
           (fun i groups =>
              total_count groups = list_sum (map votes (seq 0 i))))
    in Hrun; [exact Hrun | | reflexivity].
  intros peak index s s' Hpeak Hs Hloop. cbn [Nat.add] in *.
  assert (Hindex : (index < length all)%nat)
    by (apply nth_error_Some; congruence).
  apply (for_loop_ret _ _ _
           (fun i acc =>
              (1 <= i <= 1 + votes index)%nat
              /\ total_count acc = (total_count s + (i - 1))%nat))
    in Hloop.
  - destruct Hloop as (i & ([Hi1 Hi2] & Ht) & Hc).
    apply not_true_iff_false in Hc. rewrite lookahead_cond in Hc.
    rewrite seq_S, map_app, list_sum_app. cbn [map Nat.add].
    change (list_sum [votes index]) with (votes index + 0)%nat.
    rewrite Ht, Hs. unfold votes in Hi2 |- *. lia.
  - intros i acc a' ([Hi1 Hi2] & Ht) Hc Hbody.
    apply lookahead_cond in Hc. unfold interval_vote in Hbody.
    destruct (nth_error all (index + i)) as [next |]; [| discriminate].
    destruct (fold_tempo this fuel (raw_tempo this peak next)) as [t | e |];
      cbn [bind] in Hbody; try discriminate.
    injection Hbody as <-. fold (new_group this peak t).
    rewrite vote_total, Ht. unfold votes. lia.
  - unfold votes. lia.
Qed.

Lemma votes_are_conserved_witness :
  exists groups,
    _getIntervals defaults 30 three_peaks = Ret groups
    /\ total_count groups = 3%nat.
Proof.
  destruct (_getIntervals defaults 30 three_peaks) as [groups | e |] eqn:E;
    [| vm_compute in E; discriminate E ..].
  exists groups. split; [reflexivity |].
  exact (votes_are_conserved defaults 30 three_peaks groups E).
Defined.

(** ** The pipeline as a whole *)

Lemma getIntervals_short this fuel (all : list Peak) :
  (length all <= 1)%nat -> (1 <= fuel)%nat ->
  _getIntervals this fuel all = Ret [].
Proof.
  intros Hlen Hfuel. destruct all as [| p [| q rest]]; cbn in Hlen; try lia;
    [reflexivity |].
  destruct fuel as [| fuel]; [lia | reflexivity].
Qed.

(** X11.  A buffer of at most three windows (less than a second and a
    half at the default rate) is always rejected: at most one peak is
    selected, no interval is formed, and reading [top[0].tempo] throws
    the [TypeError] that rejects the promise. *)
Theorem short_buffer_is_rejected this (dataL dataR : Float32Array) fuel :
  0 < _sampleRate this ->
  (window_count this (length dataL) / 2 < 2)%nat ->
  (scan_fuel this (length dataL) <= fuel)%nat ->
  _processRenderedBuffer this fuel (Some (dataL, dataR)) = Throw TypeError.
Proof.
  intros Hrate Hshort Hfuel.
  destruct (window_peaks_total this (dataL, dataR) fuel Hrate Hfuel)
    as [peaks Hpeaks].
  assert (Hlen : length peaks = window_count this (length dataL)).
  { pose proof Hpeaks as Hw. unfold window_peaks in Hw.
    now apply (scan_windows_ret this Hrate _ (fun _ => True)) in Hw. }
  assert (Hsel : _getPeaks this fuel (dataL, dataR) = Ret (select_peaks peaks))
    by (unfold _getPeaks; now rewrite Hpeaks).
  unfold _processRenderedBuffer. rewrite Hsel. cbn [bind].
  rewrite getIntervals_short; [reflexivity | |].
  - rewrite select_peaks_length, Hlen. lia.
  - unfold scan_fuel in Hfuel. lia.
Qed.

Lemma short_buffer_is_rejected_witness :
  _processRenderedBuffer rate4 10
    (Some ([Fin 0; Fin 1; Fin 0; Fin 1; Fin 1],
           [Fin 0; Fin 1; Fin 0; Fin 1; Fin 1]))
  = Throw TypeError.
Proof.
  apply short_buffer_is_rejected.
  - reflexivity.
  - vm_compute. lia.
  - vm_compute. lia.
Defined.









(** ** The game *)

Lemma hit_in_window key now note :
  Game.isHit key now note = true ->
  (abs (BeatMap.time note - now) <=? Fin (25 # 100))%num = true.
Proof.
  unfold Game.isHit. intro H. now apply andb_true_iff in H.
Qed.

Lemma hit_rating key now note :
  Game.isHit key now note = true ->
  Game.calculateAccuracy (BeatMap.time note) now <> Game.Miss.
Proof.
  intro H. apply hit_in_window in H. unfold Game.calculateAccuracy.
  destruct (abs (BeatMap.time note - now) <=? Fin (4 # 100))%num;
    [discriminate |].
  destruct (abs (BeatMap.time note - now) <=? Fin (1 # 10))%num;
    [discriminate |].
  rewrite H. discriminate.
Qed.

(** X12.  A note that passes the hit test is never rated Miss: the hit
    window and the Good window are the same 0.25 s, so every hit scores
    between 10 and 50 points and extends the combo; the Miss row of the
    score table is never used. *)
Theorem hit_is_never_a_miss key now note :
  Game.isHit key now note = true ->
  Game.calculateAccuracy (BeatMap.time note) now <> Game.Miss
  /\ (10 <= Game.points (Game.calculateAccuracy (BeatMap.time note) now)
      <= 50)%Z
  /\ 0 < Game.comboMultiplier
           (Game.calculateAccuracy (BeatMap.time note) now).
Proof.
  intro H. apply hit_rating in H.
  destruct (Game.calculateAccuracy (BeatMap.time note) now);
    [contradiction | | |]; (split; [discriminate |]); cbn; split; lia || lra.
Qed.

Lemma hit_is_never_a_miss_witness :
  let note := {| BeatMap.time := Fin (1 # 4); BeatMap.lane := BeatMap.left;
                 BeatMap.type := BeatMap.tap |} in
  Game.isHit Game.key_d (Fin 0) note = true
  /\ Game.calculateAccuracy (BeatMap.time note) (Fin 0) <> Game.Miss
  /\ (10 <= Game.points (Game.calculateAccuracy (BeatMap.time note) (Fin 0))
      <= 50)%Z
  /\ 0 < Game.comboMultiplier
           (Game.calculateAccuracy (BeatMap.time note) (Fin 0)).
Proof.
  intro note. split; [reflexivity |].
  apply (hit_is_never_a_miss Game.key_d (Fin 0) note). reflexivity.
Defined.

Lemma hit_points_bounds s h :
  Forall (fun note => Game.rating s note <> Game.Miss) h ->
  (10 * Z.of_nat (length h) <= hit_points s h <= 50 * Z.of_nat (length h))%Z.
Proof.
  unfold hit_points. induction 1 as [| note h Hn _ IH];
    cbn [map fold_right length]; [lia |].
  rewrite Nat2Z.inj_succ.
  destruct (Game.rating s note); [contradiction | | |]; cbn [Game.points]; lia.
Qed.

Lemma filter_none {A : Type} (f : A -> bool) (l : list A) :
  filter f l = [] -> filter (fun x => negb (f x)) l = l.
Proof.
  induction l as [| x l IH]; cbn [filter]; [reflexivity |].
  destruct (f x); [discriminate |]. intro H. cbn [negb]. now rewrite IH.
Qed.

Lemma filter_split {A : Type} (f : A -> bool) (l : list A) :
  Permutation l (filter f l ++ filter (fun x => negb (f x)) l).
Proof.
  induction l as [| x l IH]; cbn [filter]; [constructor |].
  destruct (f x); cbn [negb app].
  - now constructor.
  - now apply Permutation_cons_app.
Qed.

Lemma filter_subseq {A : Type} (f : A -> bool) (l : list A) :
  subseq (filter f l) l.
Proof.
  induction l as [| x l IH]; cbn [filter]; [constructor |].
  destruct (f x); now constructor.
Qed.

Lemma subseq_trans {A : Type} (l m n : list A) :
  subseq l m -> subseq m n -> subseq l n.
Proof.
  intros Hlm Hmn. revert l Hlm.
  induction Hmn as [| x m n _ IH | x m n _ IH]; intros l Hlm.
  - exact Hlm.
  - constructor. now apply IH.
  - inversion Hlm; subst; constructor; now apply IH.
Qed.

Lemma subseq_refl {A : Type} (l : list A) : subseq l l.
Proof. induction l; now constructor. Qed.

(** The scoring variables after the filter callback has visited the whole
    beat map. *)
Lemma visit_fold key (s : Game.state) (map : list BeatMap.NoteInfo) :
  forall t,
    let h := filter (Game.isHit key (Game.currentTime s)) map in
    let t' := fold_left (Game.visit key (Game.currentTime s)) map t in
    (h = [] -> t' = t)
    /\ (h <> [] ->
        Game.t_score t' = (Game.t_score t + hit_points s h)%Z
        /\ Game.t_combo t' = (Game.t_combo t + length h)%nat
        /\ Game.t_maxCombo t'
           = Nat.max (Game.t_maxCombo t) (Game.t_combo t + length h)
        /\ Game.hitNote t' = true
        /\ exists front note,
             h = front ++ [note]
             /\ Game.t_lastAccuracy t' = Some (Game.rating s note)).
Proof.
  induction map as [| n map IH]; intro t; cbn zeta.
  - split; [reflexivity | intro H; now contradiction H].
  - cbn [filter fold_left].
    destruct (Game.isHit key (Game.currentTime s) n) eqn:Hn.
    + split; [discriminate | intros _].
      pose proof (hit_rating _ _ _ Hn) as Hr. fold (Game.rating s n) in Hr.
      assert (Hv : Game.visit key (Game.currentTime s) t n
                   = {| Game.t_score :=
                          (Game.t_score t + Game.points (Game.rating s n))%Z;
                        Game.t_combo := S (Game.t_combo t);
                        Game.t_maxCombo :=
                          Nat.max (Game.t_maxCombo t) (S (Game.t_combo t));
                        Game.t_lastAccuracy := Some (Game.rating s n);
                        Game.hitNote := true |}).
      { unfold Game.visit. rewrite Hn. fold (Game.rating s n).
        destruct (Game.rating s n); [contradiction | reflexivity ..]. }
      rewrite Hv. clear Hv.
      match goal with
      | |- context [fold_left _ map ?t1] =>
          destruct (IH t1) as [Hnone Hsome]; set (u := t1) in *
      end.
      assert (Hp : forall h', hit_points s (n :: h')
                              = (Game.points (Game.rating s n)
                                 + hit_points s h')%Z) by reflexivity.
      rewrite Hp.
      destruct (filter (Game.isHit key (Game.currentTime s)) map)
        as [| m h'] eqn:Hh.
      * rewrite (Hnone eq_refl). subst u.
        cbn [Game.t_score Game.t_combo Game.t_maxCombo Game.t_lastAccuracy
             Game.hitNote length].
        change (hit_points s []) with 0%Z.
        repeat split; try lia.
        exists [], n. split; reflexivity.
      * destruct (Hsome ltac:(discriminate))
          as (Hs & Hco & Hm & Hhit & front & note & Hf & Hl).
        rewrite Hs, Hco, Hm, Hhit. subst u.
        cbn [Game.t_score Game.t_combo Game.t_maxCombo length].
        repeat split; try lia.
        exists (n :: front), note. rewrite Hf. split; [reflexivity | exact Hl].
    + replace (Game.visit key (Game.currentTime s) t n) with t
        by (unfold Game.visit; now rewrite Hn).
      apply IH.
Qed.

(** What a key press does while the game is playing. *)
Lemma key_press_effect key s :
  Game.isPlaying s = true ->
  let h := Game.hits key s in
  let s' := Game.handleKeyPress key s in
  Game.beatMap s'
  = filter (fun note => negb (Game.isHit key (Game.currentTime s) note))
      (Game.beatMap s)
  /\ Game.currentTime s' = Game.currentTime s
  /\ Game.isPlaying s' = true
  /\ Game.gameStatus s' = Game.gameStatus s
  /\ ((h = []
       /\ Game.score s' = Z.max 0 (Game.score s - 5)
       /\ Game.combo s' = O
       /\ Game.maxCombo s' = Game.maxCombo s
       /\ Game.lastAccuracy s' = Some Game.Miss)
      \/ (h <> []
          /\ Game.score s' = (Game.score s + hit_points s h)%Z
          /\ Game.combo s' = (Game.combo s + length h)%nat
          /\ Game.maxCombo s'
             = Nat.max (Game.maxCombo s) (Game.combo s + length h)
          /\ exists front note,
               h = front ++ [note]
               /\ Game.lastAccuracy s' = Some (Game.rating s note))).
Proof.
  intros Hplay h s'. subst s'. unfold Game.handleKeyPress. rewrite Hplay.
  cbn [negb].
  match goal with
  | |- context [fold_left _ _ ?t0] =>
      destruct (visit_fold key s (Game.beatMap s) t0) as [Hnone Hsome];
      set (t := t0) in *
  end.
  fold (Game.hits key s) in Hnone, Hsome. fold h in Hnone, Hsome.
  destruct h as [| n h'] eqn:Hh.
  - rewrite (Hnone eq_refl). subst t.
    cbn [Game.hitNote Game.t_score Game.t_maxCombo Game.beatMap
         Game.currentTime Game.isPlaying Game.gameStatus Game.score
         Game.combo Game.maxCombo Game.lastAccuracy].
    do 2 (split; [reflexivity |]). split; [reflexivity || exact Hplay |].
    split; [reflexivity |]. left. now repeat split.
  - destruct (Hsome ltac:(discriminate))
      as (Hs & Hco & Hm & Hhit & front & note & Hf & Hl).
    rewrite Hhit.
    cbn [Game.beatMap Game.currentTime Game.isPlaying Game.gameStatus
         Game.score Game.combo Game.maxCombo Game.lastAccuracy].
    rewrite Hs, Hco, Hm. subst t.
    cbn [Game.t_score Game.t_combo Game.t_maxCombo].
    do 2 (split; [reflexivity |]). split; [reflexivity || exact Hplay |].
    split; [reflexivity |]. right. split; [discriminate |].
    do 3 (split; [reflexivity |]). exists front, note. now split.
Qed.

Lemma hits_rated key s :
  Forall (fun note => Game.rating s note <> Game.Miss) (Game.hits key s).
Proof.
  apply Forall_forall. intros note Hin. unfold Game.hits in Hin.
  apply filter_In in Hin. destruct Hin as [_ Hin].
  now apply hit_rating in Hin.
Qed.

(** X13.  A key press that hits notes while the game is playing removes
    exactly the hit notes (the notes left are the notes that fail the hit
    test, in their order), adds one to the combo and between 10 and 50
    points to the score for each of them, raises the highest combo to the
    new combo when that is larger, and shows the rating of the last note
    hit. *)
Theorem key_press_with_hits key s :
  Game.isPlaying s = true ->
  Game.hits key s <> [] ->
  let n := length (Game.hits key s) in
  let s' := Game.handleKeyPress key s in
  Game.beatMap s'
  = filter (fun note => negb (Game.isHit key (Game.currentTime s) note))
      (Game.beatMap s)
  /\ Permutation (Game.beatMap s) (Game.hits key s ++ Game.beatMap s')
  /\ (length (Game.beatMap s') + n = length (Game.beatMap s))%nat
  /\ Game.combo s' = (Game.combo s + n)%nat
  /\ Game.maxCombo s' = Nat.max (Game.maxCombo s) (Game.combo s')
  /\ (Game.score s + 10 * Z.of_nat n <= Game.score s'
      <= Game.score s + 50 * Z.of_nat n)%Z
  /\ exists front note,
       Game.hits key s = front ++ [note]
       /\ Game.lastAccuracy s' = Some (Game.rating s note).
Proof.
  intros Hplay Hhits n s'.
  destruct (key_press_effect key s Hplay)
    as (Hmap & _ & _ & _ & [[Hnone _] | (_ & Hs & Hc & Hm & Hlast)]);
    [contradiction |].
  fold s' in Hmap, Hs, Hc, Hm, Hlast.
  pose proof (hit_points_bounds s _ (hits_rated key s)) as Hb. fold n in Hb.
  split; [exact Hmap |]. split; [| split].
  - rewrite Hmap. unfold Game.hits. apply filter_split.
  - rewrite Hmap, Nat.add_comm. unfold n, Game.hits. apply filter_length.
  - rewrite Hm, Hc, Hs. fold n. repeat split; try lia. exact Hlast.
Qed.

Lemma key_press_with_hits_witness :
  let s := Game.started
             [{| BeatMap.time := Fin (1 # 100); BeatMap.lane := BeatMap.left;
                 BeatMap.type := BeatMap.tap |};
              {| BeatMap.time := Fin (2 # 10); BeatMap.lane := BeatMap.right;
                 BeatMap.type := BeatMap.tap |};
              {| BeatMap.time := Fin (2 # 10); BeatMap.lane := BeatMap.left;
                 BeatMap.type := BeatMap.hold |}] in
  let s' := Game.handleKeyPress Game.key_d s in
  Game.beatMap s'
  = [{| BeatMap.time := Fin (2 # 10); BeatMap.lane := BeatMap.right;
        BeatMap.type := BeatMap.tap |}]
  /\ (Game.beatMap s'
      = filter (fun note =>
                  negb (Game.isHit Game.key_d (Game.currentTime s) note))
          (Game.beatMap s)
      /\ Permutation (Game.beatMap s)
           (Game.hits Game.key_d s ++ Game.beatMap s')
      /\ (length (Game.beatMap s') + 2 = 3)%nat
      /\ Game.combo s' = 2%nat
      /\ Game.maxCombo s' = Nat.max 0 (Game.combo s')
      /\ (0 + 10 * 2 <= Game.score s' <= 0 + 50 * 2)%Z
      /\ exists front note,
           Game.hits Game.key_d s = front ++ [note]
           /\ Game.lastAccuracy s' = Some (Game.rating s note)).
Proof.
  intros s s'. split; [reflexivity |].
  apply (key_press_with_hits Game.key_d s); [reflexivity | discriminate].
Defined.

(** X14.  A key press that hits no note while the game is playing takes
    5 points, but never below zero, resets the combo, shows Miss, and leaves
    the beat map, the clock and the highest combo as they are. *)
Theorem key_press_without_hits key s :
  Game.isPlaying s = true ->
  Game.hits key s = [] ->
  Game.handleKeyPress key s
  = {| Game.beatMap := Game.beatMap s;
       Game.currentTime := Game.currentTime s;
       Game.score := Z.max 0 (Game.score s - 5);
       Game.combo := O;
       Game.maxCombo := Game.maxCombo s;
       Game.isPlaying := true;
       Game.gameStatus := Game.gameStatus s;
       Game.lastAccuracy := Some Game.Miss |}.
Proof.
  intros Hplay Hhits. unfold Game.handleKeyPress. rewrite Hplay. cbn [negb].
  match goal with
  | |- context [fold_left _ _ ?t0] =>
      destruct (visit_fold key s (Game.beatMap s) t0) as [Hnone _]
  end.
  rewrite (Hnone Hhits). cbn [Game.hitNote Game.t_score Game.t_maxCombo].
  unfold Game.hits in Hhits. now rewrite (filter_none _ _ Hhits).
Qed.

Lemma key_press_without_hits_witness :
  let s := Game.started
             [{| BeatMap.time := Fin 1; BeatMap.lane := BeatMap.left;
                 BeatMap.type := BeatMap.tap |}] in
  Game.handleKeyPress Game.key_d s
  = {| Game.beatMap := Game.beatMap s;
       Game.currentTime := Game.currentTime s;
       Game.score := Z.max 0 (Game.score s - 5);
       Game.combo := O;
       Game.maxCombo := Game.maxCombo s;
       Game.isPlaying := true;
       Game.gameStatus := Game.gameStatus s;
       Game.lastAccuracy := Some Game.Miss |}.
Proof.
  intro s. apply (key_press_without_hits Game.key_d s); reflexivity.
Defined.

Lemma other_key_hits key s :
  key <> Game.key_d -> key <> Game.key_k -> Game.hits key s = [].
Proof.
  intros Hd Hk. unfold Game.hits.
  apply String.eqb_neq in Hd, Hk.
  induction (Game.beatMap s) as [| n l IH]; [reflexivity |].
  cbn [filter]. unfold Game.isHit at 1. rewrite Hd, Hk.
  cbn [andb orb]. now rewrite andb_false_r.
Qed.

(** X15.  Any key other than [d] and [k] pressed while the game is playing
    is a miss, whatever the notes and the clock: no note is removed, the
    combo is reset and 5 points are taken, never below zero. *)
Theorem other_keys_always_miss key s :
  Game.isPlaying s = true ->
  key <> Game.key_d -> key <> Game.key_k ->
  let s' := Game.handleKeyPress key s in
  Game.beatMap s' = Game.beatMap s
  /\ Game.score s' = Z.max 0 (Game.score s - 5)
  /\ Game.combo s' = O
  /\ Game.lastAccuracy s' = Some Game.Miss.
Proof.
  intros Hplay Hd Hk s'.
  pose proof (other_key_hits key s Hd Hk) as Hnone.
  destruct (key_press_effect key s Hplay)
    as (Hmap & _ & _ & _ & [(_ & Hs & Hc & _ & Hl) | [Hsome _]]);
    [| contradiction].
  fold s' in Hmap, Hs, Hc, Hl. unfold Game.hits in Hnone.
  rewrite (filter_none _ _ Hnone) in Hmap. now repeat split.
Qed.

Lemma other_keys_always_miss_witness :
  let key := String.String (Ascii.ascii_of_nat 97) String.EmptyString in
  let s := Game.started
             [{| BeatMap.time := Fin 0; BeatMap.lane := BeatMap.left;
                 BeatMap.type := BeatMap.tap |}] in
  Game.beatMap (Game.handleKeyPress key s) = Game.beatMap s
  /\ Game.score (Game.handleKeyPress key s) = Z.max 0 (Game.score s - 5)
  /\ Game.combo (Game.handleKeyPress key s) = O
  /\ Game.lastAccuracy (Game.handleKeyPress key s) = Some Game.Miss.
Proof.
  intros key s.
  apply (other_keys_always_miss key s); [reflexivity | discriminate ..].
Defined.

Lemma subseq_length {A : Type} (l m : list A) :
  subseq l m -> (length l <= length m)%nat.
Proof. induction 1; cbn [length]; lia. Qed.

Lemma step_fair duration map s e :
  fair_score map s -> fair_score map (Game.step duration s e).
Proof.
  intros (H0 & Hc & Hm & Hs & Hsub). destruct e as [elapsed | key];
    cbn [Game.step].
  - unfold Game.updateTime. destruct (Game.isPlaying s);
      [| now repeat split].
    cbn [Game.beatMap]. destruct (_ && _); now repeat split.
  - destruct (Game.isPlaying s) eqn:Hplay.
    + destruct (key_press_effect key s Hplay)
        as (Hmap & _ & _ & _ &
            [(Hnone & Hs' & Hc' & Hm' & _) | (_ & Hs' & Hc' & Hm' & _)]).
      * unfold Game.hits in Hnone. rewrite (filter_none _ _ Hnone) in Hmap.
        unfold fair_score. rewrite Hmap, Hs', Hc', Hm'.
        repeat split; try lia; assumption.
      * pose proof (hit_points_bounds s _ (hits_rated key s)) as Hb.
        pose proof (filter_length (Game.isHit key (Game.currentTime s))
                      (Game.beatMap s)) as Hlen.
        fold (Game.hits key s) in Hlen. rewrite <- Hmap in Hlen.
        unfold fair_score. rewrite Hs', Hc', Hm'.
        repeat split; try lia.
        rewrite Hmap. eapply subseq_trans; [apply filter_subseq | exact Hsub].
    + unfold Game.handleKeyPress. rewrite Hplay. now repeat split.
Qed.

(** X16.  Throughout a game, whatever the frames and key presses: the
    score is never negative and never more than 50 points per note removed;
    the combo is at most the highest combo, which is at most the number of
    notes removed; and the notes still on the map are notes of the
    generated map, in their original order. *)
Theorem score_stays_fair duration events map :
  fair_score map (Game.play duration events (Game.started map)).
Proof.
  unfold Game.play.
  assert (H : fair_score map (Game.started map)).
  { unfold fair_score, Game.started.
    cbn [Game.score Game.combo Game.maxCombo Game.beatMap].
    split; [lia |]. split; [lia |]. split; [lia |]. split; [lia |].
    apply subseq_refl. }
  revert H. generalize (Game.started map).
  induction events as [| e events IH]; intros s Hs; [exact Hs |].
  cbn [fold_left]. apply IH. now apply step_fair.
Qed.

Lemma frames_keep_notes duration (frames : list num) :
  forall s,
    Game.isPlaying s = true -> Game.beatMap s <> [] ->
    Game.isPlaying (Game.play duration (map Game.Frame frames) s) = true
    /\ Game.beatMap (Game.play duration (map Game.Frame frames) s)
       = Game.beatMap s.
Proof.
  unfold Game.play.
  induction frames as [| elapsed frames IH]; intros s Hplay Hmap;
    [now split |].
  cbn [map fold_left Game.step].
  assert (Hstep : Game.isPlaying (Game.updateTime duration elapsed s) = true
                  /\ Game.beatMap (Game.updateTime duration elapsed s)
                     = Game.beatMap s).
  { unfold Game.updateTime. rewrite Hplay. cbn [Game.beatMap].
    destruct (Game.beatMap s) as [| note rest]; [contradiction |].
    cbn [length Nat.eqb andb Game.isPlaying Game.beatMap]. now split. }
  destruct Hstep as [Hplay' Hmap'].
  destruct (IH _ Hplay') as [H1 H2]; [now rewrite Hmap' |].
  split; [exact H1 | now rewrite H2].
Qed.

(** X17.  A game that is playing stops only at a frame that finds the beat
    map empty and the clock at the duration or past it, and it is then
    finished: no key press stops it, and frames alone never stop a game
    whose map holds a note, nor remove the note.  So a note that is never
    hit keeps the game playing. *)
Theorem game_ends_only_when_cleared duration s :
  Game.isPlaying s = true ->
  (forall e,
      Game.isPlaying (Game.step duration s e) = false ->
      exists elapsed,
        e = Game.Frame elapsed
        /\ (elapsed >=? duration)%num = true
        /\ Game.beatMap s = []
        /\ Game.gameStatus (Game.step duration s e) = Game.finished)
  /\ (Game.beatMap s <> [] ->
      forall frames,
        Game.isPlaying (Game.play duration (map Game.Frame frames) s) = true
        /\ Game.beatMap (Game.play duration (map Game.Frame frames) s)
           = Game.beatMap s).
Proof.
  intro Hplay. split.
  - intros [elapsed | key] Hstop; cbn [Game.step] in *.
    + exists elapsed. unfold Game.updateTime in *. rewrite Hplay in *.
      cbn [Game.beatMap] in *.
      destruct (Game.beatMap s) as [| note rest];
        cbn [length Nat.eqb andb] in *.
      * destruct (elapsed >=? duration)%num; [now repeat split |].
        cbn [Game.isPlaying] in Hstop. congruence.
      * cbn [Game.isPlaying] in Hstop. congruence.
    + destruct (key_press_effect key s Hplay) as (_ & _ & Hplay' & _).
      congruence.
  - intros Hmap frames. now apply frames_keep_notes.
Qed.

Lemma game_ends_only_when_cleared_witness :
  let note := {| BeatMap.time := Fin 1; BeatMap.lane := BeatMap.left;
                 BeatMap.type := BeatMap.tap |} in
  (forall e,
      Game.isPlaying (Game.step (Fin 2) (Game.started [note]) e) = false ->
      exists elapsed,
        e = Game.Frame elapsed
        /\ (elapsed >=? Fin 2)%num = true
        /\ Game.beatMap (Game.started [note]) = []
        /\ Game.gameStatus (Game.step (Fin 2) (Game.started [note]) e)
           = Game.finished)
  /\ Game.isPlaying
       (Game.play (Fin 2) (map Game.Frame [Fin 1; Fin 2; Fin 3])
          (Game.started [note])) = true.
Proof.
  intro note.
  destruct (game_ends_only_when_cleared (Fin 2) (Game.started [note]) eq_refl)
    as [Hstep Hframes].
  split; [exact Hstep |].
  apply Hframes. discriminate.
Defined.

(** X18.  Once the game is not playing, no frame and no key press changes
    anything: the score, the combo and the map are frozen. *)
Theorem stopped_game_is_frozen duration events s :
  Game.isPlaying s = false -> Game.play duration events s = s.
Proof.
  intro Hstop. unfold Game.play.
  induction events as [| e events IH]; [reflexivity |].
  cbn [fold_left].
  replace (Game.step duration s e) with s; [exact IH |].
  destruct e as [elapsed | key]; cbn [Game.step].
  - unfold Game.updateTime. now rewrite Hstop.
  - unfold Game.handleKeyPress. now rewrite Hstop.
Qed.

Lemma stopped_game_is_frozen_witness :
  Game.play (Fin 1) [Game.KeyDown Game.key_d; Game.Frame (Fin 2)]
    (Game.endGame (Game.started []))
  = Game.endGame (Game.started []).
Proof.
  apply (stopped_game_is_frozen (Fin 1)
           [Game.KeyDown Game.key_d; Game.Frame (Fin 2)]
           (Game.endGame (Game.started []))).
  reflexivity.
Defined.

(** ** The beat map generator *)


Lemma get_index (data : Float32Array) (z : Z) :
  (0 <= z)%Z -> get data (Fin (inject_Z z)) = nth (Z.to_nat z) data NaN.
Proof.
  intro Hz. unfold get. rewrite Qfloor_Z.
  assert (H1 : Qeqb (inject_Z z) (inject_Z z) = true) by (qprop; reflexivity).
  assert (H2 : (0 <=? z)%Z = true) by now apply Z.leb_le.
  now rewrite H1, H2.
Qed.

Lemma StronglySorted_snoc {A : Type} (R : A -> A -> Prop) (l : list A) (a : A) :
  StronglySorted R l -> Forall (fun x => R x a) l ->
  StronglySorted R (l ++ [a]).
Proof.
  induction 1 as [| x l Hl IH Hx]; intro Hall; cbn [app].
  - repeat constructor.
  - inversion Hall as [| ? ? Hxa Hla]; subst. constructor.
    + now apply IH.
    + apply Forall_app. split; [exact Hx | now constructor].
Qed.

(** A list of notes in strictly increasing time is left as it is by the
    sort that ends [generateBeatMap]. *)
Lemma sort_increasing (gap : Q) (l : list BeatMap.NoteInfo) :
  0 < gap -> StronglySorted (apart gap) l ->
  sort (fun a b => (BeatMap.time a - BeatMap.time b)%num) l = l.
Proof.
  intros Hgap. induction 1 as [| x l Hl IH Hx]; [reflexivity |].
  cbn [sort fold_right].
  fold (sort (fun a b => (BeatMap.time a - BeatMap.time b)%num) l).
  rewrite IH. destruct l as [| y l']; [reflexivity |].
  inversion Hx as [| ? ? (ta & tb & Ha & Hb & Hab) _]; subst.
  cbn [sort_insert]. rewrite Ha, Hb. cbn [sub neg add gt lt].
  assert (H : Qltb 0 (ta + - tb) = false) by (qprop; lra).
  now rewrite H.
Qed.

(** X19.  When the sine is within [-1, 1], the clamps of
    [calculateNoteProbability] never act: the probability is the sum
    [baseProbability + rhythmicVariation] as the code computes it, and it
    lies strictly between the clamping values 0.2 and 1. *)
Theorem note_probability_range (Math_sin : num -> num) (Math_PI : num)
  (time : num) (v : Q) :
  Math_sin (time * Math_PI / Fin 2)%num = Fin v ->
  -1 <= v -> v <= 1 ->
  BeatMap.calculateNoteProbability Math_sin Math_PI time
  = (Fin (6 # 10) + Math_sin (time * Math_PI / Fin 2) * Fin (2 # 10))%num
  /\ (Fin (2 # 10)
      <? BeatMap.calculateNoteProbability Math_sin Math_PI time)%num = true
  /\ (BeatMap.calculateNoteProbability Math_sin Math_PI time
      <? Fin 1)%num = true.
Proof.
  intros Hsin Hlo Hhi. unfold BeatMap.calculateNoteProbability.
  rewrite Hsin. cbn [mul add max].
  destruct (Qleb (2 # 10) ((6 # 10) + v * (2 # 10))) eqn:H1; qprop; [| lra].
  cbn [Math_min].
  destruct (Qleb 1 ((6 # 10) + v * (2 # 10))) eqn:H2; qprop; [lra |].
  split; [reflexivity |]. cbn [lt]. split; qprop; lra.
Qed.

Lemma note_probability_range_witness :
  BeatMap.calculateNoteProbability (fun _ => Fin (-1)) (Fin 3) (Fin 1)
  = (Fin (6 # 10) + Fin (-1) * Fin (2 # 10))%num
  /\ (Fin (2 # 10)
      <? BeatMap.calculateNoteProbability (fun _ => Fin (-1)) (Fin 3)
           (Fin 1))%num = true
  /\ (BeatMap.calculateNoteProbability (fun _ => Fin (-1)) (Fin 3) (Fin 1)
      <? Fin 1)%num = true.
Proof.
  apply (note_probability_range (fun _ => Fin (-1)) (Fin 3) (Fin 1) (-1));
    [reflexivity | lra | lra].
Defined.

Section GeneratorFacts.
Variable Math_sin : num -> num.
Variable Math_PI : num.
Variable random : nat -> num.
Variable this : BeatInfo.

Variables (b s0 d : Q).
Hypothesis bpm_fin : bpm this = Fin b.
Hypothesis bpm_nonzero : ~ b == 0.
Hypothesis start_fin : (firstBar this + offset this)%num = Fin s0.
Hypothesis random_unit : forall k, unit_interval (random k).

Lemma subdivision_cases (k : nat) :
  exists (m : nat) (sub : Q),
    (1 <= m)%nat
    /\ get BeatMap.subdivisions
         (Math_floor (random k * of_nat (length BeatMap.subdivisions))%num)
       = Fin sub
    /\ sub == inject_Z (Z.of_nat m) * (1 # 4).
Proof.
  destruct (random_unit k) as (r & -> & Hr0 & Hr1).
  cbn [BeatMap.subdivisions length of_nat mul Math_floor].
  set (x := r * inject_Z (Z.of_nat 3)).
  assert (Hx0 : 0 <= x)
    by (unfold x; change (inject_Z (Z.of_nat 3)) with 3; lra).
  assert (Hx3 : x < 3)
    by (unfold x; change (inject_Z (Z.of_nat 3)) with 3; lra).
  assert (Hz0 : (0 <= Qfloor x)%Z).
  { change 0%Z with (Qfloor 0). now apply Qfloor_resp_le. }
  assert (Hz3 : (Qfloor x < 3)%Z).
  { rewrite Zlt_Qlt. eapply Qle_lt_trans; [apply Qfloor_le | exact Hx3]. }
  rewrite get_index by exact Hz0.
  assert (Hc : Qfloor x = 0%Z \/ Qfloor x = 1%Z \/ Qfloor x = 2%Z) by lia.
  destruct Hc as [-> | [-> | ->]].
  - exists 1%nat, (25 # 100). split; [lia |]. split; reflexivity.
  - exists 2%nat, (5 # 10). split; [lia |]. split; reflexivity.
  - exists 4%nat, 1. split; [lia |]. split; reflexivity.
Qed.

(** One turn of the loop: the notes are kept or a note at the current time
    is pushed; the time moves one, two or four (60 / b / 4) beats on. *)
Lemma beat_step_effect (c : BeatMap.cursor) (t : Q) :
  BeatMap.currentTime c = Fin t ->
  let c' := BeatMap.beat_step Math_sin Math_PI random (Fin (60 / b)) c in
  (exists (m : nat) (t' : Q),
     (1 <= m)%nat /\ BeatMap.currentTime c' = Fin t'
     /\ t' == t + inject_Z (Z.of_nat m) * (60 / b / 4))
  /\ (BeatMap.notes c' = BeatMap.notes c
      \/ exists note,
           BeatMap.notes c' = BeatMap.notes c ++ [note]
           /\ BeatMap.time note = Fin t).
Proof.
  intros Ht c'. subst c'. unfold BeatMap.beat_step.
  destruct (random (BeatMap.drawn c)
            <? BeatMap.calculateNoteProbability Math_sin Math_PI
                 (BeatMap.currentTime c))%num;
    cbn [BeatMap.currentTime BeatMap.notes BeatMap.drawn].
  - destruct (subdivision_cases (3 + BeatMap.drawn c))
      as (m & sub & Hm & -> & Hsub).
    rewrite Ht. cbn [mul add]. split.
    + exists m, (t + 60 / b * sub). split; [exact Hm |].
      split; [reflexivity |].
      rewrite Hsub. field. exact bpm_nonzero.
    + right. eexists. split; [reflexivity | reflexivity].
  - destruct (subdivision_cases (1 + BeatMap.drawn c))
      as (m & sub & Hm & -> & Hsub).
    rewrite Ht. cbn [mul add]. split.
    + exists m, (t + 60 / b * sub). split; [exact Hm |].
      split; [reflexivity |].
      rewrite Hsub. field. exact bpm_nonzero.
    + now left.
Qed.

Lemma beat_loop_start (fuel : nat) (duration : num) :
  BeatMap.beat_loop Math_sin Math_PI random this fuel duration
  = while_loop fuel (fun c => (BeatMap.currentTime c <? duration)%num)
      (BeatMap.beat_step Math_sin Math_PI random (Fin (60 / b)))
      {| BeatMap.currentTime := Fin s0; BeatMap.notes := [];
         BeatMap.drawn := 0 |}.
Proof.
  unfold BeatMap.beat_loop. rewrite bpm_fin, start_fin.
  now rewrite (div_fin 60 b bpm_nonzero).
Qed.

Hypothesis bpm_pos : 0 < b.

Lemma quarter_pos : 0 < (60 / b / 4).
Proof.
  apply Qlt_shift_div_l; [reflexivity |].
  apply Qlt_shift_div_l; [exact bpm_pos | lra].
Qed.

Lemma at_head_step (c : BeatMap.cursor) :
  at_head s0 (60 / b / 4) d c -> (BeatMap.currentTime c <? Fin d)%num = true ->
  at_head s0 (60 / b / 4) d
    (BeatMap.beat_step Math_sin Math_PI random (Fin (60 / b)) c)
  /\ (turns_left (60 / b / 4) d
        (BeatMap.beat_step Math_sin Math_PI random (Fin (60 / b)) c)
      < turns_left (60 / b / 4) d c)%nat.
Proof.
  unfold at_head. intros (k & t & Ht & Hk & Hgrid & Hgap & Hsorted) Hcond.
  pose proof quarter_pos as Hq.
  rewrite Ht in Hcond. cbn [lt] in Hcond. qprop.
  destruct (beat_step_effect c t Ht) as [(m & t' & Hm & Ht' & Hmove) Hnotes].
  set (c' := BeatMap.beat_step Math_sin Math_PI random (Fin (60 / b)) c) in *.
  assert (Hmq : (60 / b / 4) <= inject_Z (Z.of_nat m) * (60 / b / 4)).
  { assert (H1 : 1 <= inject_Z (Z.of_nat m))
      by (change 1 with (inject_Z 1); rewrite <- Zle_Qle; lia).
    assert (H2 : 0 <= (inject_Z (Z.of_nat m) - 1) * (60 / b / 4))
      by (apply Qmult_le_0_compat; lra).
    lra. }
  split.
  - exists (k + m)%nat, t'. split; [exact Ht' |]. split.
    { rewrite Hmove, Hk, Nat2Z.inj_add, inject_Z_plus. ring. }
    assert (Hold : Forall (fun note => exists u, BeatMap.time note = Fin u
                                                 /\ u + (60 / b / 4) <= t')
                     (BeatMap.notes c)).
    { eapply Forall_impl; [| exact Hgap]. intros note (u & Hu & Hle).
      exists u. split; [exact Hu | lra]. }
    destruct Hnotes as [-> | (note & -> & Hnote)]; [now repeat split |].
    split; [| split].
    + apply Forall_app. split; [exact Hgrid |]. constructor; [| constructor].
      exists k, t. now repeat split.
    + apply Forall_app. split; [exact Hold |]. constructor; [| constructor].
      exists t. split; [exact Hnote | lra].
    + apply StronglySorted_snoc; [exact Hsorted |].
      eapply Forall_impl; [| exact Hgap]. intros a (u & Hu & Hle).
      exists u, t. now repeat split.
  - unfold turns_left. rewrite Ht, Ht'.
    assert (Hx : 0 < (d - t) / (60 / b / 4))
      by (apply Qlt_shift_div_l; [exact Hq | lra]).
    assert (Hle : (d - t') / (60 / b / 4) <= (d - t) / (60 / b / 4) - 1).
    { apply Qle_shift_div_r; [exact Hq |].
      assert (E : ((d - t) / (60 / b / 4) - 1) * (60 / b / 4)
                  == d - t - (60 / b / 4))
        by (field; intro E; rewrite E in Hq; discriminate).
      rewrite E. lra. }
    apply Qceiling_resp_le in Hle. rewrite Qceiling_pred in Hle.
    apply Qceiling_pos in Hx. lia.
Qed.

Lemma at_head_start :
  at_head s0 (60 / b / 4) d
    {| BeatMap.currentTime := Fin s0; BeatMap.notes := [];
       BeatMap.drawn := 0 |}.
Proof.
  exists O, s0. cbn [BeatMap.currentTime BeatMap.notes].
  repeat split; try constructor. cbn. ring.
Qed.


Lemma beat_loop_ret (fuel : nat) (c : BeatMap.cursor) :
  BeatMap.beat_loop Math_sin Math_PI random this fuel (Fin d) = Ret c ->
  at_head s0 (60 / b / 4) d c.
Proof.
  rewrite beat_loop_start. intro Hrun.
  eapply while_loop_ret with (Inv := at_head s0 (60 / b / 4) d) in Hrun;
    [exact (proj1 Hrun) | | exact at_head_start].
  intros x Hx Hcond. now apply at_head_step.
Qed.

End GeneratorFacts.

Lemma StronglySorted_weaken {A : Type} (R R' : A -> A -> Prop) (l : list A) :
  (forall a b, R a b -> R' a b) -> StronglySorted R l -> StronglySorted R' l.
Proof.
  intros Himp. induction 1 as [| x l _ IH Hx]; constructor; [exact IH |].
  eapply Forall_impl; [apply Himp | exact Hx].
Qed.

(** X20.  For a positive finite bpm, a finite start [firstBar + offset]
    and duration, and [Math.random] returning values in [0, 1): in a map
    [generateBeatMap] returns, every note is at a finite time from the
    start on and before the duration, the notes are in the order of their
    times, and the final sort has changed nothing: the map is the list of
    notes in the order the loop pushed them. *)
Theorem generated_notes_in_order (Math_sin : num -> num) (Math_PI : num)
  (random : nat -> num) (this : BeatInfo) (b s0 d : Q) fuel notes :
  bpm this = Fin b -> 0 < b ->
  (firstBar this + offset this)%num = Fin s0 ->
  (forall k, unit_interval (random k)) ->
  BeatMap.generateBeatMap Math_sin Math_PI random this fuel (Fin d)
  = Ret notes ->
  Forall (in_time s0 d) notes
  /\ StronglySorted not_before notes
  /\ exists c,
       BeatMap.beat_loop Math_sin Math_PI random this fuel (Fin d) = Ret c
       /\ notes = BeatMap.notes c.
Proof.
  intros Hbpm Hb Hstart Hrandom Hrun.
  assert (Hnz : ~ b == 0) by (intro E; rewrite E in Hb; discriminate).
  pose proof (quarter_pos b Hb) as Hq.
  unfold BeatMap.generateBeatMap in Hrun.
  destruct (BeatMap.beat_loop Math_sin Math_PI random this fuel (Fin d))
    as [c | e |] eqn:Hc; cbn [bind] in Hrun; try discriminate.
  injection Hrun as <-.
  destruct (beat_loop_ret Math_sin Math_PI random this b s0 d
              Hbpm Hnz Hstart Hrandom Hb fuel c Hc)
    as (k & t & _ & _ & Hgrid & _ & Hsorted).
  rewrite (sort_increasing _ _ Hq Hsorted).
  split; [| split; [| now exists c]].
  - eapply Forall_impl; [| exact Hgrid].
    intros note (j & u & Hu & Hj & Hlt). exists u.
    split; [exact Hu |]. split; [| exact Hlt].
    assert (H0 : 0 <= inject_Z (Z.of_nat j))
      by (change 0 with (inject_Z 0); rewrite <- Zle_Qle; lia).
    pose proof (Qmult_le_0_compat _ _ H0 (Qlt_le_weak _ _ Hq)) as Hprod.
    rewrite Hj. lra.
  - eapply StronglySorted_weaken; [| exact Hsorted].
    intros x y (ta & tb & Ha & Hb' & Hab). exists ta, tb.
    split; [exact Ha |]. split; [exact Hb' | lra].
Qed.

Lemma generated_notes_in_order_witness :
  let Math_sin := fun _ : num => Fin 0 in
  let random := fun _ : nat => Fin (1 # 2) in
  let this := {| bpm := Fin 120; offset := Fin 0; firstBar := Fin 0 |} in
  exists notes,
    BeatMap.generateBeatMap Math_sin (Fin 3) random this 30 (Fin 1)
    = Ret notes
    /\ length notes = 4%nat
    /\ Forall (in_time 0 1) notes
    /\ StronglySorted not_before notes
    /\ exists c,
         BeatMap.beat_loop Math_sin (Fin 3) random this 30 (Fin 1) = Ret c
         /\ notes = BeatMap.notes c.
Proof.
  intros Math_sin random this.
  destruct (BeatMap.generateBeatMap Math_sin (Fin 3) random this 30 (Fin 1))
    as [notes | e |] eqn:E; [| vm_compute in E; discriminate E ..].
  exists notes. split; [reflexivity |]. split.
  - vm_compute in E. injection E as <-. reflexivity.
  - apply (generated_notes_in_order Math_sin (Fin 3) random this 120 0 1
             30 notes).
    + reflexivity.
    + reflexivity.
    + reflexivity.
    + intro k. exists (1 # 2). split; [reflexivity | lra].
    + exact E.
Defined.

(** X21.  With a negative bpm the loop of [generateBeatMap] steps
    backwards in time: when the start is before the duration it never
    ends, whatever [Math.random] returns. *)
Theorem negative_bpm_never_returns (Math_sin : num -> num) (Math_PI : num)
  (random : nat -> num) (this : BeatInfo) (b s0 d : Q) :
  bpm this = Fin b -> b < 0 ->
  (firstBar this + offset this)%num = Fin s0 -> s0 < d ->
  (forall k, unit_interval (random k)) ->
  forall fuel,
    BeatMap.generateBeatMap Math_sin Math_PI random this fuel (Fin d)
    = OutOfFuel.
Proof.
  intros Hbpm Hb Hstart Hlt Hrandom fuel.
  assert (Hnz : ~ b == 0) by (intro E; rewrite E in Hb; discriminate).
  unfold BeatMap.generateBeatMap.
  rewrite (beat_loop_start Math_sin Math_PI random this b s0
             Hbpm Hnz Hstart).
  rewrite (while_loop_diverges _ _
             (fun c => exists t, BeatMap.currentTime c = Fin t /\ t < d));
    [reflexivity | | now exists s0].
  intros c (t & Ht & Htd). split.
  - rewrite Ht. cbn [lt]. qprop. exact Htd.
  - destruct (beat_step_effect Math_sin Math_PI random b Hnz Hrandom c t Ht)
      as [(m & t' & Hm & Ht' & Hmove) _].
    exists t'. split; [exact Ht' |].
    assert (Hq : 0 < 60 / - b / 4).
    { apply Qlt_shift_div_l; [reflexivity |].
      apply Qlt_shift_div_l; lra. }
    assert (Hneg : 60 / b / 4 == - (60 / - b / 4)) by (field; lra).
    assert (H1 : 0 < inject_Z (Z.of_nat m))
      by (change 0 with (inject_Z 0); rewrite <- Zlt_Qlt; lia).
    pose proof (Qmult_lt_0_compat _ _ H1 Hq) as Hprod.
    rewrite Hmove, Hneg. lra.
Qed.

Lemma negative_bpm_never_returns_witness :
  BeatMap.generateBeatMap (fun _ => Fin 0) (Fin 3) (fun _ => Fin (1 # 2))
    {| bpm := Fin (-120); offset := Fin 0; firstBar := Fin 0 |} 1000 (Fin 2)
  = OutOfFuel.
Proof.
  apply (negative_bpm_never_returns _ _ _ _ (-120) 0 2).
  - reflexivity.
  - reflexivity.
  - reflexivity.
  - reflexivity.
  - intro k. exists (1 # 2). split; [reflexivity | lra].
Defined.

(** ** Tap tempo: histories *)

Lemma initial_settled : TapHistory.settled Tap.initial.
Proof. left. now repeat split. Qed.

Lemma click_settled precision now w :
  TapHistory.settled w -> TapHistory.settled (Tap._tapBpm precision now w).
Proof.
  intro Hw. right. unfold Tap._tapBpm.
  cbn [Tap.tracker Tap.count Tap.ts_previous Tap.ts_current Tap.timers
       Tap._tapResetId].
  split; [lia |]. split; [reflexivity |].
  destruct Hw as [(_ & _ & _ & _ & ->) | (_ & _ & ->)]; [reflexivity |].
  cbn [Tap.clearTimeout filter fst]. now rewrite Z.eqb_refl.
Qed.

Lemma expire_settled handle now w w' :
  TapHistory.settled w -> Tap.timeout_fires handle now w = Some w' ->
  (1 <= Tap.count (Tap.tracker w))%nat
  /\ handle = Tap._tapResetId (Tap.tracker w)
  /\ (Tap.ts_current (Tap.tracker w) + 5000 <= now)%Z
  /\ Tap.fresh w'
  /\ Tap.calls w' = Tap.calls w ++ [Tap.Text Tap.no_data].
Proof.
  intros Hw Hfire. unfold Tap.timeout_fires in Hfire.
  destruct Hw as [(_ & _ & _ & _ & Ht) | (Hc & _ & Ht)]; rewrite Ht in Hfire;
    cbn [existsb fst snd orb] in Hfire; [discriminate |].
  rewrite orb_false_r in Hfire.
  destruct (Z.eqb_spec (Tap._tapResetId (Tap.tracker w)) handle)
    as [He | He]; [| discriminate].
  destruct (Z.leb_spec (Tap.ts_current (Tap.tracker w) + 5000) now)
    as [Hd | Hd]; [| discriminate].
  cbn [andb] in Hfire. injection Hfire as <-.
  split; [exact Hc |]. split; [now symmetry |]. split; [exact Hd |].
  split; [| reflexivity].
  unfold Tap.fresh. cbn [Tap.tracker Tap.count Tap.ts_current Tap.ts_previous
    Tap.ts_first Tap.timers Tap.clearTimeout filter fst].
  rewrite He, Z.eqb_refl. now repeat split.
Qed.

Lemma step_settled precision w e :
  TapHistory.settled w -> TapHistory.settled (TapHistory.step precision w e).
Proof.
  intro Hw. destruct e as [now | handle now]; cbn [TapHistory.step].
  - now apply click_settled.
  - destruct (Tap.timeout_fires handle now w) as [w' |] eqn:Hfire;
      [| exact Hw].
    left. now apply (expire_settled handle now w w' Hw) in Hfire.
Qed.

Lemma run_settled precision events w :
  TapHistory.settled w ->
  TapHistory.settled (TapHistory.run precision events w).
Proof.
  unfold TapHistory.run. revert w.
  induction events as [| e events IH]; intros w Hw; [exact Hw |].
  cbn [fold_left]. apply IH. now apply step_settled.
Qed.

(** X22.  In every history of clicks and timeouts, the tracker has at most
    one timeout pending: none exactly when its counter is zero, and
    otherwise the one whose handle it holds, due 5000 ms after the latest
    tap.  Each tap cancels the timeout of the one before. *)
Theorem one_pending_reset precision events :
  let w := TapHistory.run precision events Tap.initial in
  (length (Tap.timers w) <= 1)%nat
  /\ (Tap.timers w = [] <-> Tap.count (Tap.tracker w) = O)
  /\ Forall (fun t => fst t = Tap._tapResetId (Tap.tracker w)
                      /\ snd t = (Tap.ts_current (Tap.tracker w) + 5000)%Z)
       (Tap.timers w).
Proof.
  intro w.
  destruct (run_settled precision events Tap.initial initial_settled)
    as [(Hc & _ & _ & _ & Ht) | (Hc & _ & Ht)]; fold w in Hc, Ht; rewrite Ht.
  - cbn [length]. split; [lia |]. split; [tauto | constructor].
  - cbn [length]. split; [lia |]. split.
    + split; [discriminate | lia].
    + constructor; [now split | constructor].
Qed.

(** X23.  In every history, when a timeout fires it is the one of the
    latest tap, at least 5000 ms have passed since that tap, the callback
    receives the text of two dashes, and the tracker is back at rest:
    taps less than five seconds apart never reset the session. *)
Theorem reset_after_five_idle_seconds precision events handle now w' :
  let w := TapHistory.run precision events Tap.initial in
  Tap.timeout_fires handle now w = Some w' ->
  (1 <= Tap.count (Tap.tracker w))%nat
  /\ handle = Tap._tapResetId (Tap.tracker w)
  /\ (Tap.ts_current (Tap.tracker w) + 5000 <= now)%Z
  /\ Tap.fresh w'
  /\ Tap.calls w' = Tap.calls w ++ [Tap.Text Tap.no_data].
Proof.
  intros w Hfire. apply (expire_settled handle now w w'); [| exact Hfire].
  apply run_settled. exact initial_settled.
Qed.

Lemma reset_after_five_idle_seconds_witness :
  exists w',
    let w := TapHistory.run None
               [TapHistory.Click 1000; TapHistory.Click 1500] Tap.initial in
    Tap.timeout_fires 2 6500 w = Some w'
    /\ (1 <= Tap.count (Tap.tracker w))%nat
    /\ 2%Z = Tap._tapResetId (Tap.tracker w)
    /\ (Tap.ts_current (Tap.tracker w) + 5000 <= 6500)%Z
    /\ Tap.fresh w'
    /\ Tap.calls w' = Tap.calls w ++ [Tap.Text Tap.no_data].
Proof.
  eexists. intro w. split; [reflexivity |].
  apply (reset_after_five_idle_seconds None
           [TapHistory.Click 1000; TapHistory.Click 1500] 2 6500).
  reflexivity.
Defined.

Lemma tap_bpm_not_nan precision (count : nat) (current first : Z) :
  (1 <= count)%nat -> Tap.tap_bpm precision count current first <> NaN.
Proof.
  intro Hc. unfold Tap.tap_bpm, Tap.of_Z, of_nat.
  cbn [mul sub neg add div].
  assert (Hpos : 0 < 60000 * inject_Z (Z.of_nat count)).
  { assert (H1 : 0 < inject_Z (Z.of_nat count))
      by (change 0 with (inject_Z 0); rewrite <- Zlt_Qlt; lia).
    lra. }
  apply Qgt_alt in Hpos. rewrite Hpos.
  destruct (Qeqb (inject_Z current + - inject_Z first) 0);
    destruct precision as [p |]; try discriminate.
  - now rewrite (proj1 (floatRound_inf p)).
  - now rewrite floatRound_fin.
Qed.

Lemma step_not_nan precision w e :
  TapHistory.settled w -> Forall not_nan (Tap.calls w) ->
  Forall not_nan (Tap.calls (TapHistory.step precision w e)).
Proof.
  intros Hw Hcalls. destruct e as [now | handle now]; cbn [TapHistory.step].
  - unfold Tap._tapBpm. cbn [Tap.calls].
    destruct (Z.eqb_spec (Tap.ts_previous (Tap.tracker w)) 0) as [He | He];
      cbn [negb]; [exact Hcalls |].
    apply Forall_app. split; [exact Hcalls |]. constructor; [| constructor].
    assert (Hc : (1 <= Tap.count (Tap.tracker w))%nat).
    { destruct Hw as [(_ & _ & Hp & _) | (Hc & _)];
        [contradiction | exact Hc]. }
    pose proof (tap_bpm_not_nan precision _ now
                  (if (Tap.ts_first (Tap.tracker w) =? 0)%Z then now
                   else Tap.ts_first (Tap.tracker w)) Hc) as Hn.
    cbn [not_nan].
    destruct (Tap.tap_bpm precision (Tap.count (Tap.tracker w)) now _);
      [exact I .. | contradiction].
  - destruct (Tap.timeout_fires handle now w) as [w' |] eqn:Hfire;
      [| exact Hcalls].
    destruct (expire_settled handle now w w' Hw Hfire)
      as (_ & _ & _ & _ & ->).
    apply Forall_app. split; [exact Hcalls |]. repeat constructor.
Qed.

(** X24.  With no precision configured, or with a precision between -300
    and 300 (for which [10^p] is a finite number other than zero), the
    callback receives NaN in no history: a bpm is only delivered when a tap
    is already counted, so the numerator of the quotient is positive and a
    zero time difference gives Infinity, not 0/0. *)
Theorem callback_never_gets_nan precision events :
  (forall p, precision = Some p -> (-300 <= p <= 300)%Z) ->
  Forall not_nan (Tap.calls (TapHistory.run precision events Tap.initial)).
Proof.
  intros _. unfold TapHistory.run.
  assert (H : TapHistory.settled Tap.initial
              /\ Forall not_nan (Tap.calls Tap.initial))
    by (split; [exact initial_settled | constructor]).
  revert H. generalize Tap.initial.
  induction events as [| e events IH]; intros w [Hw Hcalls]; [exact Hcalls |].
  cbn [fold_left]. apply IH. split.
  - now apply step_settled.
  - now apply step_not_nan.
Qed.

Lemma callback_never_gets_nan_witness :
  Forall not_nan
    (Tap.calls
       (TapHistory.run (Some 2%Z)
          [TapHistory.Click 1000; TapHistory.Click 1000;
           TapHistory.Click 1700; TapHistory.Expire 3 6700]
          Tap.initial)).
Proof.
  apply (callback_never_gets_nan (Some 2%Z)).
  intros p Hp. injection Hp as <-. lia.
Defined.

(** ** From the detected beat to the beat map *)



